(** * Chunked peer-to-peer file transfer: sender and reassembler

    A shallow embedding of the chunked transfer protocol implemented twice
    in the repository:

    - [Manual]: the component [ManualLocalhostP2PFileTransfer] (manual SDP
      exchange over an [RTCDataChannel]); chunks travel as raw binary
      frames and are stored in arrival order;
    - [App]: the component [App] (PeerJS [DataConnection]); chunks travel
      as ['file-chunk'] messages that carry an explicit index.

    Conventions of the embedding.

    - JavaScript numbers that count bytes, chunks or array positions are
      [nat]: every such number in the source is a non-negative integer, and
      the messages are typed accordingly ([totalChunks] is an array length,
      [index] an array index).  [Math.ceil] of a quotient is the ceiling of
      the exact rational quotient; the only divisor is [CHUNK_SIZE], a power
      of two, for which the double-precision quotient of a byte length is
      exact.
    - An [ArrayBuffer] is its list of bytes.  A JavaScript array is a list of
      slots, [None] being a hole.
    - A [Blob] is the pair of its bytes and of its [type], which the
      constructor derives from the [type] option handed to it.
    - React state and refs of a component are the fields of one record that
      the handlers transform; [Date.now()] is an argument of the handler.
    - A text frame of the data channel is represented by the message that
      [JSON.stringify] encoded and [JSON.parse] decodes.
    - During one run of [sendFile] the channel keeps its [readyState];
      [bufferedAmount] grows by the byte length of every payload sent and
      shrinks only by what the transport transmits during a timer wait.  The
      transport's behaviour is an input of the sender.
    - During one run of [sendFile] the data connection keeps its [open]
      flag.  The listeners of a connection are those [setupConnection]
      registers, which is the only place that stores a connection in
      [connectionRef].

    The file also embeds two pieces of the form side of the application
    that the page of [App] uses: the submissions kept in [localStorage]
    ([Storage]) and the e-mail pattern of the input form
    ([EmailPattern]). *)

From Stdlib Require Import ZArith QArith Qround Ascii.
From stdpp Require Import base numbers list strings pretty gmap.

Local Open Scope nat_scope.

(** ** Platform values *)

Abbreviation byte := Byte.byte.

Abbreviation ArrayBuffer := (list byte).

(** [arrayBuffer.byteLength] *)
Definition byteLength (b : ArrayBuffer) : nat := length b.

(** [arrayBuffer.slice(start, end)] for non-negative arguments: both bounds
    are clamped to the length and an inverted range is empty. *)
Definition slice (b : ArrayBuffer) (start end_ : nat) : ArrayBuffer :=
  take (end_ - start) (drop start b).

(** A JavaScript array: a list of slots, [None] for a hole. *)
Abbreviation JSArray A := (list (option A)).

(** [new Array(n)]: [n] holes. *)
Definition new_Array {A} (n : nat) : JSArray A := replicate n None.

(** [a[i] = v]: inside the array the slot is overwritten; at or beyond its
    length the array grows to length [i + 1], the gap being holes. *)
Definition array_set {A} (a : JSArray A) (i : nat) (v : A) : JSArray A :=
  if decide (i < length a) then <[i := Some v]> a
  else a ++ replicate (i - length a) None ++ [Some v].

(** Number of slots of an array that are not holes. *)
Definition nonEmptySlots {A} (a : JSArray A) : nat :=
  length (filter is_Some a).
Arguments nonEmptySlots : simpl never.

Record Blob := mkBlob {
  blob_bytes : list byte;
  blob_type : string
}.

(** A blob part taken from an array slot.  The constructor iterates the
    array, a hole yields [undefined], and [undefined] is converted to the
    string "undefined". *)
Definition BlobPart_bytes (p : option ArrayBuffer) : list byte :=
  match p with
  | Some b => b
  | None => String.list_byte_of_string "undefined"
  end.

(** A character in the range U+0020 to U+007E.  Texts are byte strings:
    every byte of the UTF-8 form of a character beyond U+007F is above
    that range. *)
Definition isPrintable (a : ascii) : bool :=
  let n := nat_of_ascii a in (32 <=? n) && (n <=? 126).

(** ASCII lower-casing of one character. *)
Definition asciiLowercase (a : ascii) : ascii :=
  let n := nat_of_ascii a in
  if (65 <=? n) && (n <=? 90) then ascii_of_nat (n + 32) else a.

Fixpoint allPrintable (t : string) : bool :=
  match t with
  | EmptyString => true
  | String a t' => isPrintable a && allPrintable t'
  end.

Fixpoint lowercase (t : string) : string :=
  match t with
  | EmptyString => EmptyString
  | String a t' => String (asciiLowercase a) (lowercase t')
  end.

(** The [type] of a blob constructed with the option [type]: the empty
    string if the option has a character outside U+0020 to U+007E, else the
    option in ASCII lower case. *)
Definition normalizeType (type : string) : string :=
  if allPrintable type then lowercase type else "".

(** [new Blob(parts, { type })] *)
Definition new_Blob (parts : JSArray ArrayBuffer) (type : string) : Blob :=
  {| blob_bytes := concat (map BlobPart_bytes parts);
     blob_type := normalizeType type |}.

Record File := mkFile {
  file_name : string;
  file_type : string;
  file_bytes : ArrayBuffer
}.

(** ** Protocol data (declared identically by both components) *)

(** Represents a file received via P2P connection *)
Record ReceivedFile := mkReceivedFile {
  rf_name : string;
  rf_data : Blob;
  rf_timestamp : nat
}.

Record FileStartMessage := mkFileStart {
  start_name : string;
  start_fileType : string;
  start_totalChunks : nat;
  start_totalSize : nat
}.

Record FileChunkMessage := mkFileChunk {
  index : nat;
  data : ArrayBuffer
}.

Inductive TransferMessage :=
| FileStart (m : FileStartMessage)
| FileChunk (m : FileChunkMessage)
| FileEnd.

(** Tracks an incoming file transfer in progress *)
Record IncomingTransfer := mkIncomingTransfer {
  name : string;
  fileType : string;
  totalChunks : nat;
  totalSize : nat;
  chunks : JSArray ArrayBuffer;
  receivedCount : nat
}.

(** Chunk size: 64KB *)
Definition CHUNK_SIZE : nat := 64 * 1024.

(** A progress value shown by the component: a literal, or the number
    [Math.round((num / den) * 100)], kept symbolic because it is computed in
    floating point. *)
Inductive Progress :=
| Pnum (n : nat)
| Pround (num den : nat).

(** The transfer-related state ([useState]) and refs ([useRef]) of a
    component. *)
Record Component := mkComponent {
  error : string;
  selectedFile : option File;
  receivedFiles : list ReceivedFile;
  uploadProgress : Progress;
  downloadProgress : Progress;
  transferStatus : string;
  incomingTransferRef : option IncomingTransfer
}.

(** The state of a freshly mounted component. *)
Definition initialComponent : Component :=
  {| error := ""; selectedFile := None; receivedFiles := [];
     uploadProgress := Pnum 0; downloadProgress := Pnum 0;
     transferStatus := ""; incomingTransferRef := None |}.

(** [Math.ceil(byteLength / CHUNK_SIZE)], as both [sendFile] functions
    compute it. *)
Definition totalChunksOf (byteLength : nat) : nat :=
  Z.to_nat (Qceiling (inject_Z (Z.of_nat byteLength)
                      / inject_Z (Z.of_nat CHUNK_SIZE))).

(** The chunk the send loops cut at iteration [i]:
    [start = i * CHUNK_SIZE], [end = Math.min(start + CHUNK_SIZE, byteLength)],
    [arrayBuffer.slice(start, end)]. *)
Definition chunkAt (arrayBuffer : ArrayBuffer) (i : nat) : ArrayBuffer :=
  let start := i * CHUNK_SIZE in
  let end_ := Nat.min (start + CHUNK_SIZE) (byteLength arrayBuffer) in
  slice arrayBuffer start end_.

(** A frame on an [RTCDataChannel]: a string (JSON of a message) or a binary
    payload. *)
Inductive Frame :=
| TextFrame (m : TransferMessage)
| BinaryFrame (b : ArrayBuffer).

(** [setError(msg)] *)
Definition setError (msg : string) (c : Component) : Component :=
  {| error := msg; selectedFile := selectedFile c;
     receivedFiles := receivedFiles c;
     uploadProgress := uploadProgress c;
     downloadProgress := downloadProgress c;
     transferStatus := transferStatus c;
     incomingTransferRef := incomingTransferRef c |}.

(** [setUploadProgress(p)] *)
Definition setUploadProgress (p : Progress) (c : Component) : Component :=
  {| error := error c; selectedFile := selectedFile c;
     receivedFiles := receivedFiles c;
     uploadProgress := p;
     downloadProgress := downloadProgress c;
     transferStatus := transferStatus c;
     incomingTransferRef := incomingTransferRef c |}.

(** [setTransferStatus(status)] *)
Definition setTransferStatus (status : string) (c : Component) : Component :=
  {| error := error c; selectedFile := selectedFile c;
     receivedFiles := receivedFiles c;
     uploadProgress := uploadProgress c;
     downloadProgress := downloadProgress c;
     transferStatus := status;
     incomingTransferRef := incomingTransferRef c |}.

(** [setSelectedFile(file)] *)
Definition setSelectedFile (file : option File) (c : Component) : Component :=
  {| error := error c; selectedFile := file;
     receivedFiles := receivedFiles c;
     uploadProgress := uploadProgress c;
     downloadProgress := downloadProgress c;
     transferStatus := transferStatus c;
     incomingTransferRef := incomingTransferRef c |}.

(** ** The data channel of the manual-signaling component *)

Inductive RTCDataChannelState := connecting | open | closing | closed.

#[global] Instance RTCDataChannelState_eq_dec : EqDecision RTCDataChannelState.
Proof. solve_decision. Defined.

(** One call of [channel.send], with the value [bufferedAmount] had when the
    call was made. *)
Record SendCall := mkSendCall {
  frame : Frame;
  queuedBefore : nat
}.

(** The channel as the sender sees it: its state, its gauge of bytes queued
    and not yet transmitted, and the calls of [send] made so far. *)
Record RTCDataChannel := mkChannel {
  readyState : RTCDataChannelState;
  bufferedAmount : nat;
  sendLog : list SendCall
}.

(** What the sender does not control: how many queued bytes the transport
    transmits during the [k]-th 10 ms timer wait, and the number of bytes of
    the JSON text of a message. *)
Record Transport := mkTransport {
  drain : nat -> nat;
  textBytes : TransferMessage -> nat
}.

Definition frameBytes (env : Transport) (f : Frame) : nat :=
  match f with
  | TextFrame m => textBytes env m
  | BinaryFrame b => byteLength b
  end.

(** [channel.send(f)] on an open channel: the payload is queued. *)
Definition channel_send (env : Transport) (channel : RTCDataChannel)
    (f : Frame) : RTCDataChannel :=
  {| readyState := readyState channel;
     bufferedAmount := bufferedAmount channel + frameBytes env f;
     sendLog := sendLog channel ++
       [ {| frame := f; queuedBefore := bufferedAmount channel |} ] |}.

(** The transport transmits [n] of the queued bytes. *)
Definition transmit (channel : RTCDataChannel) (n : nat) : RTCDataChannel :=
  {| readyState := readyState channel;
     bufferedAmount := bufferedAmount channel - n;
     sendLog := sendLog channel |}.

(** Result of an asynchronous computation that polls the channel: it
    completed, or after the allowed number of polls it is still suspended in
    the drain loop of chunk [i]. *)
Inductive Outcome (A : Type) :=
| Completed (a : A)
| Suspended (i : nat) (channel : RTCDataChannel) (tick : nat).
Arguments Completed {A} a.
Arguments Suspended {A} i channel tick.

(** ** The manual-signaling component *)

Module Manual.

(** Handle transfer protocol messages *)
Definition handleTransferMessage (now : nat) (message : TransferMessage)
    (c : Component) : Component :=
  match message with
  | FileStart m =>
      {| error := error c; selectedFile := selectedFile c;
         receivedFiles := receivedFiles c;
         uploadProgress := uploadProgress c;
         downloadProgress := Pnum 0;
         transferStatus := "Receiving: " +:+ start_name m;
         incomingTransferRef := Some
           {| name := start_name m;
              fileType := start_fileType m;
              totalChunks := start_totalChunks m;
              totalSize := start_totalSize m;
              chunks := new_Array (start_totalChunks m);
              receivedCount := 0 |} |}
  | FileEnd =>
      match incomingTransferRef c with
      | Some transfer =>
          let blob := new_Blob (chunks transfer) (fileType transfer) in
          {| error := error c; selectedFile := selectedFile c;
             receivedFiles := receivedFiles c ++
               [ {| rf_name := name transfer; rf_data := blob;
                    rf_timestamp := now |} ];
             uploadProgress := uploadProgress c;
             downloadProgress := Pnum 0;
             transferStatus := "";
             incomingTransferRef := None |}
      | None => c
      end
  | FileChunk _ => c
  end.

(** Handle incoming chunk data *)
Definition handleChunkData (data : ArrayBuffer) (c : Component) : Component :=
  match incomingTransferRef c with
  | None => c
  | Some transfer =>
      let chunks' := array_set (chunks transfer) (receivedCount transfer) data in
      let receivedCount' := receivedCount transfer + 1 in
      {| error := error c; selectedFile := selectedFile c;
         receivedFiles := receivedFiles c;
         uploadProgress := uploadProgress c;
         downloadProgress := Pround receivedCount' (totalChunks transfer);
         transferStatus := transferStatus c;
         incomingTransferRef := Some
           {| name := name transfer;
              fileType := fileType transfer;
              totalChunks := totalChunks transfer;
              totalSize := totalSize transfer;
              chunks := chunks';
              receivedCount := receivedCount' |} |}
  end.

(** [channel.onmessage] *)
Definition onmessage (now : nat) (event_data : Frame) (c : Component)
    : Component :=
  match event_data with
  | TextFrame message => handleTransferMessage now message c
  | BinaryFrame data => handleChunkData data c
  end.

(** Delivery of a sequence of frames, each with the clock value at its
    arrival. *)
Definition receive (events : list (nat * Frame)) (c : Component)
    : Component :=
  fold_left (fun c ev => onmessage ev.1 ev.2 c) events c.



(** [while (channel.bufferedAmount > CHUNK_SIZE * 4)
       await new Promise((resolve) => setTimeout(resolve, 10));]
    [polls] bounds the number of timer waits; [tick] counts the waits made
    since the send began. *)
Fixpoint awaitDrain (polls : nat) (env : Transport) (i : nat)
    (channel : RTCDataChannel) (tick : nat)
    : Outcome (RTCDataChannel * nat) :=
  if CHUNK_SIZE * 4 <? bufferedAmount channel then
    match polls with
    | 0 => Suspended i channel tick
    | S polls' =>
        awaitDrain polls' env i (transmit channel (drain env tick)) (S tick)
    end
  else Completed (channel, tick).

(** [for (let i = 0; i < totalChunks; i++) { ... }], by recursion on the
    number [remaining = totalChunks - i] of iterations left. *)
Fixpoint sendChunks (polls : nat) (env : Transport)
    (arrayBuffer : ArrayBuffer) (totalChunks remaining i : nat)
    (channel : RTCDataChannel) (tick : nat) (progress : Progress)
    : Outcome (RTCDataChannel * nat * Progress) :=
  match remaining with
  | 0 => Completed (channel, tick, progress)
  | S remaining' =>
      let chunk := chunkAt arrayBuffer i in
      match awaitDrain polls env i channel tick with
      | Suspended j ch t => Suspended j ch t
      | Completed (channel', tick') =>
          sendChunks polls env arrayBuffer totalChunks remaining' (S i)
            (channel_send env channel' (BinaryFrame chunk)) tick'
            (Pround (i + 1) totalChunks)
      end
  end.

(** [file.type || 'application/octet-stream'] *)
Definition typeOrDefault (type : string) : string :=
  if decide (type = "") then "application/octet-stream" else type.

Definition startMessage (file : File) : FileStartMessage :=
  {| start_name := file_name file;
     start_fileType := typeOrDefault (file_type file);
     start_totalChunks := totalChunksOf (byteLength (file_bytes file));
     start_totalSize := byteLength (file_bytes file) |}.

(** Send file using chunked transfer.  The result is the component, the
    channel ref and the tick when the function returns (the reset of the
    progress display by the one-second timer is a later event). *)
Definition sendFile (polls : nat) (env : Transport)
    (dataChannelRef : option RTCDataChannel) (tick : nat) (c : Component)
    : Outcome (Component * option RTCDataChannel * nat) :=
  match dataChannelRef, selectedFile c with
  | Some channel, Some file =>
      if decide (readyState channel <> open) then
        Completed (setError "Data channel is not open" c, dataChannelRef, tick)
      else
        let arrayBuffer := file_bytes file in
        let totalChunks := totalChunksOf (byteLength arrayBuffer) in
        let channel1 :=
          channel_send env channel (TextFrame (FileStart (startMessage file))) in
        match sendChunks polls env arrayBuffer totalChunks totalChunks 0
                channel1 tick (Pnum 0) with
        | Suspended j ch t => Suspended j ch t
        | Completed (channel2, tick', progress) =>
            let channel3 := channel_send env channel2 (TextFrame FileEnd) in
            Completed
              ({| error := error c; selectedFile := None;
                  receivedFiles := receivedFiles c;
                  uploadProgress := progress;
                  downloadProgress := downloadProgress c;
                  transferStatus := "Sending: " +:+ file_name file;
                  incomingTransferRef := incomingTransferRef c |},
               Some channel3, tick')
        end
  | _, _ =>
      Completed (setError "No connection or file selected" c,
                 dataChannelRef, tick)
  end.

End Manual.


(** ** The PeerJS component *)

(** A PeerJS data connection as the component uses it: whether it is open
    ([conn.open]), the calls of [conn.send] made on it, in order, and the
    messages that were handed to the peer, in order. *)
Record DataConnection := mkConn {
  conn_open : bool;
  sendCalls : list TransferMessage;
  transmitted : list TransferMessage
}.

(** The message of the error a connection emits when [send] is called on
    it before it is open. *)
Definition NOT_OPEN_MESSAGE : string :=
  "Connection is not open. You should listen for the `open` event before sending messages.".

(** [conn.send(m)] of PeerJS.  An open connection hands the message to the
    peer.  A connection that is not open transmits nothing and emits
    ['error']; the second component of the result is the message of that
    error.  The call does not change [conn.open]. *)
Definition conn_send (conn : DataConnection) (m : TransferMessage)
    : DataConnection * option string :=
  if conn_open conn then
    ({| conn_open := true; sendCalls := sendCalls conn ++ [m];
        transmitted := transmitted conn ++ [m] |}, None)
  else
    ({| conn_open := false; sendCalls := sendCalls conn ++ [m];
        transmitted := transmitted conn |}, Some NOT_OPEN_MESSAGE).

Module App.

(** [conn.on('data', ...)] *)
Definition ondata (now : nat) (message : TransferMessage) (c : Component)
    : Component :=
  match message with
  | FileStart m =>
      {| error := error c; selectedFile := selectedFile c;
         receivedFiles := receivedFiles c;
         uploadProgress := uploadProgress c;
         downloadProgress := Pnum 0;
         transferStatus := "Receiving: " +:+ start_name m;
         incomingTransferRef := Some
           {| name := start_name m;
              fileType := start_fileType m;
              totalChunks := start_totalChunks m;
              totalSize := start_totalSize m;
              chunks := new_Array (start_totalChunks m);
              receivedCount := 0 |} |}
  | FileChunk m =>
      match incomingTransferRef c with
      | Some transfer =>
          let chunks' := array_set (chunks transfer) (index m) (data m) in
          let receivedCount' := receivedCount transfer + 1 in
          {| error := error c; selectedFile := selectedFile c;
             receivedFiles := receivedFiles c;
             uploadProgress := uploadProgress c;
             downloadProgress := Pround receivedCount' (totalChunks transfer);
             transferStatus := transferStatus c;
             incomingTransferRef := Some
               {| name := name transfer;
                  fileType := fileType transfer;
                  totalChunks := totalChunks transfer;
                  totalSize := totalSize transfer;
                  chunks := chunks';
                  receivedCount := receivedCount' |} |}
      | None => c
      end
  | FileEnd =>
      match incomingTransferRef c with
      | Some transfer =>
          let blob := new_Blob (chunks transfer) (fileType transfer) in
          {| error := error c; selectedFile := selectedFile c;
             receivedFiles := receivedFiles c ++
               [ {| rf_name := name transfer; rf_data := blob;
                    rf_timestamp := now |} ];
             uploadProgress := uploadProgress c;
             downloadProgress := Pnum 0;
             transferStatus := "";
             incomingTransferRef := None |}
      | None => c
      end
  end.

Definition receive (events : list (nat * TransferMessage)) (c : Component)
    : Component :=
  fold_left (fun c ev => ondata ev.1 ev.2 c) events c.

(** [conn.on('error', ...)] *)
Definition onerror (message : string) (c : Component) : Component :=
  setError ("Connection error: " +:+ message) c.

(** [conn.send(m)] as the component observes it: the listener of ['error']
    that [setupConnection] registered on the connection runs before the
    call returns. *)
Definition send (conn : DataConnection) (m : TransferMessage) (c : Component)
    : DataConnection * Component :=
  match conn_send conn m with
  | (conn', Some message) => (conn', onerror message c)
  | (conn', None) => (conn', c)
  end.

(** The chunk loop of [sendFile]; the 10 ms pause after every chunk but
    the last changes no state. *)
Fixpoint sendChunks (arrayBuffer : ArrayBuffer) (totalChunks remaining i : nat)
    (conn : DataConnection) (c : Component)
    : DataConnection * Component :=
  match remaining with
  | 0 => (conn, c)
  | S remaining' =>
      let chunk := chunkAt arrayBuffer i in
      let '(conn', c') :=
        send conn (FileChunk {| index := i; data := chunk |}) c in
      sendChunks arrayBuffer totalChunks remaining' (S i) conn'
        (setUploadProgress (Pround (i + 1) totalChunks) c')
  end.

Definition startMessage (file : File) : FileStartMessage :=
  {| start_name := file_name file;
     start_fileType := file_type file;
     start_totalChunks := totalChunksOf (byteLength (file_bytes file));
     start_totalSize := byteLength (file_bytes file) |}.

(** Send a file to the connected peer using chunked transfer *)
Definition sendFile (connectionRef : option DataConnection) (c : Component)
    : Component * option DataConnection :=
  match connectionRef, selectedFile c with
  | Some conn, Some file =>
      let arrayBuffer := file_bytes file in
      let totalChunks := totalChunksOf (byteLength arrayBuffer) in
      let c0 :=
        setTransferStatus ("Sending: " +:+ file_name file)
          (setUploadProgress (Pnum 0) c) in
      let '(conn1, c1) := send conn (FileStart (startMessage file)) c0 in
      let '(conn2, c2) :=
        sendChunks arrayBuffer totalChunks totalChunks 0 conn1 c1 in
      let '(conn3, c3) := send conn2 FileEnd c2 in
      (setSelectedFile None c3, Some conn3)
  | _, _ =>
      (setError "No connection or file selected" c, connectionRef)
  end.

End App.

(** * Vocabulary of the properties *)

(** The chunks of a buffer, in index order. *)
Definition chunksOf (buf : ArrayBuffer) : list ArrayBuffer :=
  map (chunkAt buf) (seq 0 (totalChunksOf (byteLength buf))).


(** The component is not receiving a file. *)
Definition idle (c : Component) : Prop := incomingTransferRef c = None.

(** The non-empty slots of the buffer are exactly its first [receivedCount]
    slots; the slots after them, up to the announced count, are holes. *)
Definition filledPrefix (t : IncomingTransfer) : Prop :=
  exists parts : list ArrayBuffer,
    length parts = receivedCount t /\
    chunks t = map Some parts ++ replicate (totalChunks t - receivedCount t) None.

(** Every announced slot is filled and the buffer has no other slot. *)
Definition complete (t : IncomingTransfer) : Prop :=
  length (chunks t) = totalChunks t /\ Forall is_Some (chunks t).

(** The frames sent on a channel, in order. *)
Definition sentFrames (channel : RTCDataChannel) : list Frame :=
  map frame (sendLog channel).

(** A call of [send] that carries chunk [i] of [buf] and was made while at
    most [CHUNK_SIZE * 4] bytes were queued. *)
Definition chunkCall (buf : ArrayBuffer) (i : nat) (s : SendCall) : Prop :=
  frame s = BinaryFrame (chunkAt buf i) /\ queuedBefore s <= CHUNK_SIZE * 4.

(** The frames a complete send of [file] puts on the data channel. *)
Definition manualStream (file : File) : list Frame :=
  TextFrame (FileStart (Manual.startMessage file))
  :: map BinaryFrame (chunksOf (file_bytes file))
  ++ [TextFrame FileEnd].

(** The ['file-chunk'] message of chunk [i]. *)
Definition chunkMessage (buf : ArrayBuffer) (i : nat) : TransferMessage :=
  FileChunk {| index := i; data := chunkAt buf i |}.

(** The messages a complete send of [file] hands to the data connection,
    one call of [conn.send] each. *)
Definition appStream (file : File) : list TransferMessage :=
  FileStart (App.startMessage file)
  :: map (chunkMessage (file_bytes file))
         (seq 0 (totalChunksOf (byteLength (file_bytes file))))
  ++ [FileEnd].

(** A chunk was handed to the channel while at most [CHUNK_SIZE * 4] bytes
    were queued, so that at most [CHUNK_SIZE * 5] are queued right after. *)
Definition withinGauge (s : SendCall) : Prop :=
  match frame s with
  | BinaryFrame b =>
      queuedBefore s <= CHUNK_SIZE * 4 /\
      queuedBefore s + byteLength b <= CHUNK_SIZE * 5
  | TextFrame _ => True
  end.

(** The component after [sendFile] has returned from a complete send. *)
Definition afterSend (file : File) (progress : Progress) (c : Component)
    : Component :=
  {| error := error c; selectedFile := None;
     receivedFiles := receivedFiles c;
     uploadProgress := progress;
     downloadProgress := downloadProgress c;
     transferStatus := "Sending: " +:+ file_name file;
     incomingTransferRef := incomingTransferRef c |}.

(** The progress shown when the send loop is over: the last iteration set
    [Math.round((totalChunks / totalChunks) * 100)]; without iterations the
    initial 0 stays. *)
Definition finalProgress (totalChunks : nat) : Progress :=
  match totalChunks with
  | 0 => Pnum 0
  | S _ => Pround totalChunks totalChunks
  end.

(** The component after a transfer was closed and [rf] appended to the
    received files. *)
Definition afterReceipt (rf : ReceivedFile) (c : Component) : Component :=
  {| error := error c; selectedFile := selectedFile c;
     receivedFiles := receivedFiles c ++ [rf];
     uploadProgress := uploadProgress c;
     downloadProgress := Pnum 0;
     transferStatus := "";
     incomingTransferRef := None |}.

(** The component after an [End] closed a transfer whose buffer was
    [slots]. *)
Definition afterEnd (nm type : string) (slots : JSArray ArrayBuffer)
    (now : nat) (c : Component) : Component :=
  afterReceipt {| rf_name := nm; rf_data := new_Blob slots type;
                  rf_timestamp := now |} c.

(** A received file that is a byte-for-byte copy of [file], in a blob
    constructed with the type option [type]. *)
Definition receivedCopy (file : File) (type : string) (now : nat)
    : ReceivedFile :=
  {| rf_name := file_name file;
     rf_data := {| blob_bytes := file_bytes file;
                   blob_type := normalizeType type |};
     rf_timestamp := now |}.

(** ** Concrete inputs used by the examples *)

Definition abc : ArrayBuffer := [Byte.x61; Byte.x62; Byte.x63].

Definition smallFile : File :=
  {| file_name := "a.txt"; file_type := "text/plain"; file_bytes := abc |}.

(** An open channel with nothing queued. *)
Definition freshChannel : RTCDataChannel :=
  {| readyState := open; bufferedAmount := 0; sendLog := [] |}.

(** A transport that transmits up to one chunk's worth of bytes per wait.
    The byte counts of the texts stand for the JSON of the messages. *)
Definition steadyTransport : Transport :=
  {| drain := fun _ => CHUNK_SIZE;
     textBytes := fun m => match m with FileEnd => 19 | _ => 100 end |}.

(** A transport that transmits nothing. *)
Definition stalledTransport : Transport :=
  {| drain := fun _ => 0;
     textBytes := fun m => match m with FileEnd => 19 | _ => 100 end |}.

(** A component in which [file] has been selected. *)
Definition selecting (file : File) : Component :=
  {| error := ""; selectedFile := Some file; receivedFiles := [];
     uploadProgress := Pnum 0; downloadProgress := Pnum 0;
     transferStatus := ""; incomingTransferRef := None |}.

(** What the data model asks of a reassembly buffer: the count of received
    chunks is the number of non-empty slots, and the buffer is complete
    exactly when that count is the announced one. *)
Definition bufferInvariant (t : IncomingTransfer) : Prop :=
  receivedCount t = nonEmptySlots (chunks t) /\
  (complete t <-> receivedCount t = totalChunks t).

(** A [Start] for two chunks followed by two chunk messages that both carry
    index 0. *)
Definition repeatedIndexEvents : list (nat * TransferMessage) :=
  [ (0, FileStart {| start_name := "f"; start_fileType := "text/plain";
                     start_totalChunks := 2; start_totalSize := 2 |});
    (1, FileChunk {| index := 0; data := [Byte.x61] |});
    (2, FileChunk {| index := 0; data := [Byte.x62] |}) ].

(** A [Start] that announces one chunk and ten bytes, followed by a single
    one-byte binary frame. *)
Definition shortChunkEvents : list (nat * Frame) :=
  [ (0, TextFrame (FileStart {| start_name := "f"; start_fileType := "text/plain";
                                start_totalChunks := 1; start_totalSize := 10 |}));
    (1, BinaryFrame [Byte.x61]) ].

(** A transfer that has one of its three announced chunks. *)
Definition partialTransfer : IncomingTransfer :=
  {| name := "f"; fileType := "text/plain"; totalChunks := 3; totalSize := 9;
     chunks := [Some abc; None; None]; receivedCount := 1 |}.

(** The component with its transfer ref replaced. *)
Definition withTransfer (o : option IncomingTransfer) (c : Component)
    : Component :=
  {| error := error c; selectedFile := selectedFile c;
     receivedFiles := receivedFiles c;
     uploadProgress := uploadProgress c;
     downloadProgress := downloadProgress c;
     transferStatus := transferStatus c;
     incomingTransferRef := o |}.

(** A file of six full chunks. *)
Definition bigFile : File :=
  {| file_name := "big.bin"; file_type := "";
     file_bytes := replicate (6 * CHUNK_SIZE) Byte.x00 |}.

(** The channel a send has reached, completed or not. *)
Definition channelOf (out : Outcome (Component * option RTCDataChannel * nat))
    : option RTCDataChannel :=
  match out with
  | Completed (_, ref, _) => ref
  | Suspended _ channel _ => Some channel
  end.

(** A data connection that [connectToPeer] has just created: its ['open']
    event has not fired yet. *)
Definition pendingConnection : DataConnection :=
  {| conn_open := false; sendCalls := []; transmitted := [] |}.

(** A data connection whose ['open'] event has fired and on which nothing
    was sent. *)
Definition openConnection : DataConnection :=
  {| conn_open := true; sendCalls := []; transmitted := [] |}.

(** The connection after the calls [msgs] of [conn.send]. *)
Definition afterCalls (conn : DataConnection) (msgs : list TransferMessage)
    : DataConnection :=
  {| conn_open := conn_open conn;
     sendCalls := sendCalls conn ++ msgs;
     transmitted :=
       if conn_open conn then transmitted conn ++ msgs else transmitted conn |}.

(** The error shown after a call of [conn.send] on a connection that is
    not open. *)
Definition notOpenError : string := "Connection error: " +:+ NOT_OPEN_MESSAGE.

(** What the ['error'] events of the calls of [conn.send] on [conn] leave
    in a component: nothing if the connection is open. *)
Definition sendErrors (conn : DataConnection) (c : Component) : Component :=
  if conn_open conn then c else setError notOpenError c.

(** A data channel that is still connecting. *)
Definition connectingChannel : RTCDataChannel :=
  {| readyState := connecting; bufferedAmount := 0; sendLog := [] |}.

(** ** Vocabulary of the further properties *)

(** The bytes a hole of the buffer contributes to a blob. *)
Definition holeBytes : list byte := String.list_byte_of_string "undefined".

(** Number of elements of a list that satisfy a test. *)
Definition countIf {A} (p : A -> bool) (l : list A) : nat :=
  length (List.filter p l).

Definition isStart (m : TransferMessage) : bool :=
  match m with FileStart _ => true | _ => false end.

Definition isEnd (m : TransferMessage) : bool :=
  match m with FileEnd => true | _ => false end.

Definition isStartFrame (f : Frame) : bool :=
  match f with TextFrame m => isStart m | BinaryFrame _ => false end.

Definition isEndFrame (f : Frame) : bool :=
  match f with TextFrame m => isEnd m | BinaryFrame _ => false end.

(** 1 while a transfer is in progress, 0 otherwise. *)
Definition inProgress (c : Component) : nat :=
  match incomingTransferRef c with Some _ => 1 | None => 0 end.

(** The buffer of [n] slots in which the chunks whose indices are in
    [arrived] have been placed, chunk [i] holding [f i]. *)
Definition placed (f : nat -> ArrayBuffer) (arrived : list nat) (n : nat)
    : JSArray ArrayBuffer :=
  map (fun i => if decide (i ∈ arrived) then Some (f i) else None) (seq 0 n).

(** Two components show the same reassembler: same transfer in progress and
    same received files. *)
Definition sameReassembler (c c' : Component) : Prop :=
  incomingTransferRef c = incomingTransferRef c' /\
  receivedFiles c = receivedFiles c'.

(** The messages that arrived after the last ['file-start'] (all of them
    if there is none). *)
Definition sinceLastStart (msgs : list TransferMessage)
    : list TransferMessage :=
  fold_left (fun acc m => if isStart m then [] else acc ++ [m]) msgs [].

(** The indices the ['file-chunk'] messages of a list carry, in order. *)
Definition chunkIndex (m : TransferMessage) : option nat :=
  match m with FileChunk c => Some (index c) | _ => None end.

Definition chunkIndices (msgs : list TransferMessage) : list nat :=
  omap chunkIndex msgs.

(** Slot [j] of an array is not a hole. *)
Definition filled {A} (a : JSArray A) (j : nat) : Prop :=
  exists x, a !! j = Some (Some x).

(** A blob type that its constructor leaves as it is. *)
Definition normalized (type : string) : Prop := normalizeType type = type.

(** A file of two chunks: a full chunk of the letter a, then the single
    letter b. *)
Definition twoChunkFile : File :=
  {| file_name := "two.bin"; file_type := "";
     file_bytes := replicate CHUNK_SIZE Byte.x61 ++ [Byte.x62] |}.

(** * The form submissions kept in [localStorage]

    [services/storage.ts], the hook [useFormSubmit] and the handlers of
    [SubmissionsList] and [InputForm] that call it.

    [localStorage] is a finite map from keys to texts.  A text is
    represented by what [JSON.parse] makes of it: the list of submissions
    whose [JSON.stringify] it is, a text that [JSON.parse] rejects, or the
    empty string.  (Valid JSON that is not an array of submissions is outside
    this model.)  [Date.now()] and the ISO text of [new Date()] are
    arguments. *)

Module Storage.

Record FormSubmission := mkFormSubmission {
  sub_id : string;
  sub_name : string;
  sub_email : string;
  sub_message : string;
  sub_createdAt : string
}.

#[global] Instance FormSubmission_eq_dec : EqDecision FormSubmission.
Proof. solve_decision. Defined.

(** [Omit<FormSubmission, 'id' | 'createdAt'>] *)
Record FormData := mkFormData {
  form_name : string;
  form_email : string;
  form_message : string
}.

Inductive StoredText :=
| SubmissionsJSON (l : list FormSubmission)
| InvalidJSON
| EmptyText.

Abbreviation LocalStorage := (gmap string StoredText).

Definition STORAGE_KEY : string := "form_submissions".

Definition getSubmissions (localStorage : LocalStorage) : list FormSubmission :=
  match localStorage !! STORAGE_KEY with
  | None => []
  | Some EmptyText => []
  | Some InvalidJSON => []
  | Some (SubmissionsJSON l) => l
  end.

Definition saveSubmission (now : nat) (iso : string) (data : FormData)
    (localStorage : LocalStorage) : FormSubmission * LocalStorage :=
  let submissions := getSubmissions localStorage in
  let newSubmission :=
    {| sub_name := form_name data; sub_email := form_email data;
       sub_message := form_message data;
       sub_id := pretty now;
       sub_createdAt := iso |} in
  (newSubmission,
   <[STORAGE_KEY := SubmissionsJSON (submissions ++ [newSubmission])]>
     localStorage).

Definition deleteSubmission (id : string) (localStorage : LocalStorage)
    : LocalStorage :=
  let submissions := getSubmissions localStorage in
  let filtered := filter (fun sub => sub_id sub <> id) submissions in
  <[STORAGE_KEY := SubmissionsJSON filtered]> localStorage.

Definition clearSubmissions (localStorage : LocalStorage) : LocalStorage :=
  delete STORAGE_KEY localStorage.

(** The page: the storage, [App]'s [refreshKey], the list
    [SubmissionsList] shows and the success flag of [useFormSubmit]. *)
Record Page := mkPage {
  localStorage : LocalStorage;
  refreshKey : nat;
  submissions : list FormSubmission;
  isSuccess : bool
}.

(** [loadSubmissions] of [SubmissionsList]; it also runs as the effect of a
    change of [refresh], and on mount. *)
Definition loadSubmissions (p : Page) : Page :=
  {| localStorage := localStorage p; refreshKey := refreshKey p;
     submissions := getSubmissions (localStorage p);
     isSuccess := isSuccess p |}.

(** [onSubmit] of [InputForm], called with validated data:
    [handleSubmit] of [useFormSubmit] saves and raises the flag, then
    [handleSubmitSuccess] of [App] bumps [refreshKey], whose change makes
    [SubmissionsList] reload. *)
Definition onSubmit (now : nat) (iso : string) (data : FormData) (p : Page)
    : Page :=
  let saved := saveSubmission now iso data (localStorage p) in
  loadSubmissions
    {| localStorage := saved.2; refreshKey := refreshKey p + 1;
       submissions := submissions p; isSuccess := true |}.

(** The three-second timer of [useFormSubmit]. *)
Definition successTimeout (p : Page) : Page :=
  {| localStorage := localStorage p; refreshKey := refreshKey p;
     submissions := submissions p; isSuccess := false |}.

Definition handleDelete (id : string) (p : Page) : Page :=
  loadSubmissions
    {| localStorage := deleteSubmission id (localStorage p);
       refreshKey := refreshKey p; submissions := submissions p;
       isSuccess := isSuccess p |}.

(** [handleClearAll]; [confirmed] is the answer to [window.confirm]. *)
Definition handleClearAll (confirmed : bool) (p : Page) : Page :=
  if confirmed then
    loadSubmissions
      {| localStorage := clearSubmissions (localStorage p);
         refreshKey := refreshKey p; submissions := submissions p;
         isSuccess := isSuccess p |}
  else p.

Inductive PageEvent :=
| Submit (now : nat) (iso : string) (data : FormData)
| Delete (id : string)
| ClearAll (confirmed : bool)
| SuccessTimeout.

Definition handle (ev : PageEvent) (p : Page) : Page :=
  match ev with
  | Submit now iso data => onSubmit now iso data p
  | Delete id => handleDelete id p
  | ClearAll confirmed => handleClearAll confirmed p
  | SuccessTimeout => successTimeout p
  end.

Definition run (events : list PageEvent) (p : Page) : Page :=
  fold_left (fun p ev => handle ev p) events p.

(** The page right after mount, over a given storage. *)
Definition mounted (store : LocalStorage) : Page :=
  loadSubmissions
    {| localStorage := store; refreshKey := 0; submissions := [];
       isSuccess := false |}.

End Storage.

(** The submission [saveSubmission] builds. *)
Definition newSubmission (now : nat) (iso : string) (data : Storage.FormData)
    : Storage.FormSubmission :=
  {| Storage.sub_id := pretty now;
     Storage.sub_name := Storage.form_name data;
     Storage.sub_email := Storage.form_email data;
     Storage.sub_message := Storage.form_message data;
     Storage.sub_createdAt := iso |}.

(** What a page event does to a list of submissions. *)
Definition listStep (ev : Storage.PageEvent) (l : list Storage.FormSubmission)
    : list Storage.FormSubmission :=
  match ev with
  | Storage.Submit now iso data => l ++ [newSubmission now iso data]
  | Storage.Delete id => filter (fun sub => Storage.sub_id sub <> id) l
  | Storage.ClearAll true => []
  | Storage.ClearAll false => l
  | Storage.SuccessTimeout => l
  end.

Definition listAfter (events : list Storage.PageEvent)
    (l : list Storage.FormSubmission) : list Storage.FormSubmission :=
  fold_left (fun l ev => listStep ev l) events l.

Definition isSubmit (ev : Storage.PageEvent) : bool :=
  match ev with Storage.Submit _ _ _ => true | _ => false end.

Definition aliceForm : Storage.FormData :=
  {| Storage.form_name := "Alice"; Storage.form_email := "alice@example.org";
     Storage.form_message := "hello" |}.

Definition bobForm : Storage.FormData :=
  {| Storage.form_name := "Bob"; Storage.form_email := "bob@example.org";
     Storage.form_message := "hi" |}.

(** * The e-mail pattern of the input form

    [InputForm] registers the field [email] with the pattern
    [/^[A-Z0-9._%+-]+@[A-Z0-9.-]+\.[A-Z]{2,}$/i].  The pattern is embedded
    as a regular expression over characters, and testing it, which the
    anchors make a match of the whole text, as matching by derivatives.
    Characters are bytes: the classes hold ASCII characters only, so a
    character outside ASCII matches none of them in either reading. *)

Module EmailPattern.

Inductive regex :=
| Never
| Empty
| Class (p : ascii -> bool)
| Seq (r1 r2 : regex)
| Alt (r1 r2 : regex)
| Star (r : regex).

(** [r+] and [r{2,}] *)
Definition Plus (r : regex) : regex := Seq r (Star r).
Definition AtLeast2 (r : regex) : regex := Seq r (Seq r (Star r)).

Fixpoint nullable (r : regex) : bool :=
  match r with
  | Never => false
  | Empty => true
  | Class _ => false
  | Seq r1 r2 => nullable r1 && nullable r2
  | Alt r1 r2 => nullable r1 || nullable r2
  | Star _ => true
  end.

Fixpoint deriv (c : ascii) (r : regex) : regex :=
  match r with
  | Never => Never
  | Empty => Never
  | Class p => if p c then Empty else Never
  | Seq r1 r2 =>
      if nullable r1 then Alt (Seq (deriv c r1) r2) (deriv c r2)
      else Seq (deriv c r1) r2
  | Alt r1 r2 => Alt (deriv c r1) (deriv c r2)
  | Star r' => Seq (deriv c r') (Star r')
  end.

Fixpoint accepts (r : regex) (s : list ascii) : bool :=
  match s with
  | [] => nullable r
  | c :: s' => accepts (deriv c r) s'
  end.

(** The texts a regular expression matches. *)
Inductive Matches : regex -> list ascii -> Prop :=
| MEmpty : Matches Empty []
| MClass p c : p c = true -> Matches (Class p) [c]
| MSeq r1 r2 s1 s2 :
    Matches r1 s1 -> Matches r2 s2 -> Matches (Seq r1 r2) (s1 ++ s2)
| MAltL r1 r2 s : Matches r1 s -> Matches (Alt r1 r2) s
| MAltR r1 r2 s : Matches r2 s -> Matches (Alt r1 r2) s
| MStarNil r : Matches (Star r) []
| MStarApp r s1 s2 :
    Matches r s1 -> Matches (Star r) s2 -> Matches (Star r) (s1 ++ s2).

(** Character classes, with the [i] flag: a letter of either case. *)
Definition isLetter (c : ascii) : bool :=
  let n := nat_of_ascii c in
  ((65 <=? n) && (n <=? 90)) || ((97 <=? n) && (n <=? 122)).

Definition isDigit (c : ascii) : bool :=
  let n := nat_of_ascii c in (48 <=? n) && (n <=? 57).

Definition isChar (a : ascii) (c : ascii) : bool := Ascii.eqb c a.

(** [[A-Z0-9._%+-]] *)
Definition localChar (c : ascii) : bool :=
  isLetter c || isDigit c
  || isChar "." c || isChar "_" c || isChar "%" c || isChar "+" c || isChar "-" c.

(** [[A-Z0-9.-]] *)
Definition domainChar (c : ascii) : bool :=
  isLetter c || isDigit c || isChar "." c || isChar "-" c.

Definition pattern : regex :=
  Seq (Plus (Class localChar))
    (Seq (Class (isChar "@"))
       (Seq (Plus (Class domainChar))
          (Seq (Class (isChar "."))
             (AtLeast2 (Class isLetter))))).

(** [pattern.test(value)] *)
Definition test (value : string) : bool :=
  accepts pattern (String.list_ascii_of_string value).

End EmailPattern.

(** Every character of a text is in a class. *)
Definition allChars (p : ascii -> bool) (s : list ascii) : Prop :=
  Forall (fun c => p c = true) s.

(** A text of the shape [local @ domain . tld]. *)
Definition emailShape (s l d t : list ascii) : Prop :=
  s = l ++ "@"%char :: d ++ "."%char :: t /\
  l <> [] /\ allChars EmailPattern.localChar l /\
  d <> [] /\ allChars EmailPattern.domainChar d /\
  2 <= length t /\ allChars EmailPattern.isLetter t.
(** * Properties *)

(** ** Arithmetic of the chunk count *)

Lemma CHUNK_SIZE_value : Z.of_nat CHUNK_SIZE = 65536%Z.
Proof. unfold CHUNK_SIZE. lia. Qed.

Lemma CHUNK_SIZE_pos : 0 < CHUNK_SIZE.
Proof. unfold CHUNK_SIZE. lia. Qed.

(** From here on the chunk size is used through the two facts above. *)
#[global] Opaque CHUNK_SIZE.

(** The ceiling of a quotient of integers, bracketed by multiples of the
    divisor. *)
Lemma Qceiling_quotient_bounds (a : Z) (p : positive) :
  let c := Qceiling (inject_Z a / inject_Z (Z.pos p)) in
  ((c - 1) * Z.pos p < a <= c * Z.pos p)%Z.
Proof.
  intros c.
  assert (Hc : c = (- ((- a) / Z.pos p))%Z).
  { subst c. rewrite <- (Qmake_Qdiv a p). reflexivity. }
  pose proof (Z.div_mod (- a) (Z.pos p) ltac:(lia)) as Hdm.
  pose proof (Z.mod_pos_bound (- a) (Z.pos p) ltac:(lia)) as Hmod.
  nia.
Qed.

(** [totalChunksOf n] is the number [k] with [(k - 1) * CHUNK_SIZE < n <=
    k * CHUNK_SIZE]. *)
Lemma totalChunksOf_bounds (n : nat) :
  n <= totalChunksOf n * CHUNK_SIZE /\
  totalChunksOf n * CHUNK_SIZE < n + CHUNK_SIZE.
Proof.
  unfold totalChunksOf.
  pose proof CHUNK_SIZE_pos as Hpos.
  destruct (Z.of_nat CHUNK_SIZE) as [|p|p] eqn:Hp; try lia.
  pose proof (Qceiling_quotient_bounds (Z.of_nat n) p) as Hb. simpl in Hb.
  set (c := Qceiling (inject_Z (Z.of_nat n) / inject_Z (Z.pos p))) in *.
  assert (0 <= c)%Z by nia.
  split; nia.
Qed.

Lemma totalChunksOf_least (n k : nat) :
  n <= k * CHUNK_SIZE -> totalChunksOf n <= k.
Proof.
  intros Hk. destruct (totalChunksOf_bounds n) as [_ Hlt].
  pose proof CHUNK_SIZE_pos. nia.
Qed.

Lemma totalChunksOf_zero (n : nat) : totalChunksOf n = 0 <-> n = 0.
Proof.
  destruct (totalChunksOf_bounds n) as [Hle Hlt].
  pose proof CHUNK_SIZE_pos. split; intros; nia.
Qed.

Lemma totalChunksOf_unique (n k : nat) :
  n <= k * CHUNK_SIZE -> k * CHUNK_SIZE < n + CHUNK_SIZE ->
  totalChunksOf n = k.
Proof.
  intros H1 H2. destruct (totalChunksOf_bounds n) as [Hle Hlt].
  pose proof CHUNK_SIZE_pos. nia.
Qed.

(** ** Cutting a buffer into chunks *)

Lemma chunkAt_take (buf : ArrayBuffer) (i : nat) :
  chunkAt buf i = take CHUNK_SIZE (drop (i * CHUNK_SIZE) buf).
Proof.
  unfold chunkAt, slice, byteLength.
  destruct (decide (i * CHUNK_SIZE + CHUNK_SIZE <= length buf)) as [Hle|Hgt].
  - f_equal. lia.
  - rewrite !take_ge; [done | rewrite length_drop; lia ..].
Qed.

Lemma chunkAt_length (buf : ArrayBuffer) (i : nat) :
  byteLength (chunkAt buf i) <= CHUNK_SIZE.
Proof. rewrite chunkAt_take. unfold byteLength. rewrite length_take. lia. Qed.

(** The first [k] chunks, concatenated, are the first [k * CHUNK_SIZE]
    bytes. *)
Lemma chunks_concat_take (buf : ArrayBuffer) (k : nat) :
  concat (map (chunkAt buf) (seq 0 k)) = take (k * CHUNK_SIZE) buf.
Proof.
  induction k as [|k IH]; [done|].
  rewrite seq_S, map_app, concat_app, IH. simpl.
  rewrite app_nil_r, chunkAt_take, take_take_drop. f_equal. lia.
Qed.

Lemma chunksOf_length (buf : ArrayBuffer) :
  length (chunksOf buf) = totalChunksOf (byteLength buf).
Proof. unfold chunksOf. by rewrite length_map, length_seq. Qed.

Lemma chunksOf_concat (buf : ArrayBuffer) : concat (chunksOf buf) = buf.
Proof.
  unfold chunksOf. rewrite chunks_concat_take. apply take_ge.
  destruct (totalChunksOf_bounds (byteLength buf)) as [Hle _].
  unfold byteLength in *. lia.
Qed.


(** ** Arrays with holes *)

Lemma new_Array_length {A} (n : nat) : length (@new_Array A n) = n.
Proof. apply length_replicate. Qed.

(** Filling the first hole of an array whose filled slots form a prefix. *)
Lemma array_set_next {A} (r : list A) (m : nat) (x : A) :
  array_set (map Some r ++ replicate m None) (length r) x
  = map Some (r ++ [x]) ++ replicate (m - 1) None.
Proof.
  unfold array_set. rewrite length_app, length_map, length_replicate, map_app.
  destruct m as [|m].
  - rewrite decide_False by lia.
    replace (length r - (length r + 0)) with 0 by lia.
    simpl. by rewrite !app_nil_r.
  - rewrite decide_True by lia.
    rewrite insert_app_r_alt by (rewrite length_map; lia).
    rewrite length_map, Nat.sub_diag. simpl.
    by rewrite Nat.sub_0_r, <- app_assoc.
Qed.

Lemma nonEmptySlots_app {A} (a b : JSArray A) :
  nonEmptySlots (a ++ b) = nonEmptySlots a + nonEmptySlots b.
Proof. unfold nonEmptySlots. by rewrite filter_app, length_app. Qed.

Lemma nonEmptySlots_filled {A} (r : list A) :
  nonEmptySlots (map Some r) = length r.
Proof.
  unfold nonEmptySlots. induction r as [|x r IH]; [done|].
  cbn [map]. rewrite filter_cons_True by eauto. cbn [length]. by rewrite IH.
Qed.

Lemma nonEmptySlots_holes {A} (m : nat) :
  nonEmptySlots (replicate m (@None A)) = 0.
Proof.
  unfold nonEmptySlots. induction m as [|m IH]; [done|].
  cbn [replicate]. rewrite filter_cons_False; [done|]. by intros [? ?].
Qed.

Lemma nonEmptySlots_le_length {A} (a : JSArray A) :
  nonEmptySlots a <= length a.
Proof. apply length_filter. Qed.

(** Overwriting or extending adds at most one non-empty slot. *)
Lemma nonEmptySlots_array_set {A} (a : JSArray A) (i : nat) (v : A) :
  nonEmptySlots (array_set a i v) <= nonEmptySlots a + 1.
Proof.
  unfold array_set. destruct (decide (i < length a)) as [Hlt|Hge].
  - rewrite <- (take_drop i a) at 2.
    rewrite insert_take_drop by done.
    rewrite !nonEmptySlots_app.
    change (Some v :: drop (S i) a) with ([Some v] ++ drop (S i) a).
    rewrite nonEmptySlots_app.
    assert (Hd : nonEmptySlots (drop (S i) a) <= nonEmptySlots (drop i a)).
    { destruct (lookup_lt_is_Some_2 a i Hlt) as [x Hx].
      rewrite (drop_S a x i Hx).
      change (x :: drop (S i) a) with ([x] ++ drop (S i) a).
      rewrite nonEmptySlots_app. lia. }
    change (nonEmptySlots [Some v]) with (length (filter is_Some [Some v])).
    rewrite filter_cons_True by eauto. simpl. lia.
  - rewrite !nonEmptySlots_app, nonEmptySlots_holes.
    change (nonEmptySlots [Some v]) with (length (filter is_Some [Some v])).
    rewrite filter_cons_True by eauto. simpl. lia.
Qed.

(** A blob built from an array without holes holds the concatenation of the
    array's buffers. *)
Lemma new_Blob_filled (parts : list ArrayBuffer) (type : string) :
  new_Blob (map Some parts) type
  = {| blob_bytes := concat parts; blob_type := normalizeType type |}.
Proof.
  unfold new_Blob. f_equal. rewrite map_map. simpl. by rewrite map_id.
Qed.

(** ** The reassembly buffer of the ordered variant *)

Lemma filledPrefix_count (t : IncomingTransfer) :
  filledPrefix t -> receivedCount t = nonEmptySlots (chunks t).
Proof.
  intros (parts & Hlen & ->).
  rewrite nonEmptySlots_app, nonEmptySlots_filled, nonEmptySlots_holes. lia.
Qed.

Lemma filledPrefix_complete (t : IncomingTransfer) :
  filledPrefix t -> (complete t <-> receivedCount t = totalChunks t).
Proof.
  intros (parts & Hlen & Hch). unfold complete. rewrite Hch.
  rewrite length_app, length_map, length_replicate, Forall_app. split.
  - intros (Hl & _ & Hholes).
    destruct (totalChunks t - receivedCount t) as [|m] eqn:Hm; [lia|].
    apply Forall_cons in Hholes as [[? Hnone] _]. discriminate.
  - intros Heq. rewrite Heq, Nat.sub_diag. repeat split.
    + lia.
    + apply Forall_map, Forall_forall. intros; cbn; eauto.
    + constructor.
Qed.

Lemma Manual_handleChunkData_filledPrefix (data : ArrayBuffer) (c : Component) :
  (forall t, incomingTransferRef c = Some t -> filledPrefix t) ->
  forall t, incomingTransferRef (Manual.handleChunkData data c) = Some t ->
            filledPrefix t.
Proof.
  intros Hinv t. unfold Manual.handleChunkData.
  destruct (incomingTransferRef c) as [t0|] eqn:Hc; [|by rewrite Hc].
  destruct (Hinv t0 eq_refl) as (parts & Hlen & Hch).
  cbn. intros [= <-]. exists (parts ++ [data]). cbn. split.
  - rewrite length_app. cbn. lia.
  - rewrite Hch, <- Hlen, array_set_next. do 2 f_equal. lia.
Qed.

Lemma Manual_onmessage_filledPrefix (now : nat) (f : Frame) (c : Component) :
  (forall t, incomingTransferRef c = Some t -> filledPrefix t) ->
  forall t, incomingTransferRef (Manual.onmessage now f c) = Some t ->
            filledPrefix t.
Proof.
  intros Hinv t. destruct f as [[m| |]|b]; cbn.
  - intros [= <-]. exists []. cbn. by rewrite Nat.sub_0_r.
  - apply Hinv.
  - destruct (incomingTransferRef c) eqn:Hc; cbn; [done|]. by rewrite Hc.
  - by apply Manual_handleChunkData_filledPrefix.
Qed.

Lemma Manual_receive_filledPrefix (events : list (nat * Frame)) (c : Component) :
  (forall t, incomingTransferRef c = Some t -> filledPrefix t) ->
  forall t, incomingTransferRef (Manual.receive events c) = Some t ->
            filledPrefix t.
Proof.
  revert c. induction events as [|[now f] events IH]; intros c Hinv; [done|].
  cbn. apply IH. by apply Manual_onmessage_filledPrefix.
Qed.

(** ** The send loop of the manual-signaling component *)

Lemma awaitDrain_eq (polls : nat) (env : Transport) (i : nat)
    (channel : RTCDataChannel) (tick : nat) :
  Manual.awaitDrain polls env i channel tick =
  if CHUNK_SIZE * 4 <? bufferedAmount channel then
    match polls with
    | 0 => Suspended i channel tick
    | S polls' =>
        Manual.awaitDrain polls' env i (transmit channel (drain env tick)) (S tick)
    end
  else Completed (channel, tick).
Proof. by destruct polls. Qed.

Lemma awaitDrain_spec (polls : nat) (env : Transport) (i : nat)
    (channel : RTCDataChannel) (tick : nat) :
  match Manual.awaitDrain polls env i channel tick with
  | Completed (channel', tick') =>
      sendLog channel' = sendLog channel /\
      readyState channel' = readyState channel /\
      bufferedAmount channel' <= CHUNK_SIZE * 4 /\
      bufferedAmount channel' <= bufferedAmount channel
  | Suspended j channel' tick' =>
      j = i /\ tick' = tick + polls /\
      sendLog channel' = sendLog channel /\
      CHUNK_SIZE * 4 < bufferedAmount channel'
  end.
Proof.
  revert channel tick. induction polls as [|polls IH]; intros channel tick;
    rewrite awaitDrain_eq;
    destruct (Nat.ltb_spec (CHUNK_SIZE * 4) (bufferedAmount channel));
    try (repeat split; (done || lia)).
  specialize (IH (transmit channel (drain env tick)) (S tick)).
  destruct (Manual.awaitDrain polls env i _ _) as [[ch' t']|j ch' t'];
    cbn in IH; intuition lia.
Qed.

Lemma sendChunks_spec (polls : nat) (env : Transport) (buf : ArrayBuffer)
    (total remaining i : nat) (channel : RTCDataChannel) (tick : nat)
    (progress : Progress) :
  match Manual.sendChunks polls env buf total remaining i channel tick progress with
  | Completed (channel', tick', progress') =>
      exists calls,
        sendLog channel' = sendLog channel ++ calls /\
        Forall2 (chunkCall buf) (seq i remaining) calls /\
        readyState channel' = readyState channel /\
        progress' = match remaining with
                    | 0 => progress
                    | S _ => Pround (i + remaining) total
                    end
  | Suspended j channel' tick' =>
      exists calls,
        sendLog channel' = sendLog channel ++ calls /\
        i <= j < i + remaining /\
        Forall2 (chunkCall buf) (seq i (j - i)) calls /\
        CHUNK_SIZE * 4 < bufferedAmount channel'
  end.
Proof.
  revert i channel tick progress.
  induction remaining as [|remaining IH]; intros i channel tick progress; cbn.
  - exists []. rewrite app_nil_r. repeat split. constructor.
  - pose proof (awaitDrain_spec polls env i channel tick) as Hw.
    destruct (Manual.awaitDrain polls env i channel tick) as [[ch1 t1]|j ch1 t1].
    + destruct Hw as (Hlog & Hrs & Hq & _).
      set (ch2 := channel_send env ch1 (BinaryFrame (chunkAt buf i))).
      specialize (IH (S i) ch2 t1 (Pround (i + 1) total)).
      assert (Hcall : chunkCall buf i
                {| frame := BinaryFrame (chunkAt buf i);
                   queuedBefore := bufferedAmount ch1 |}) by (by split).
      destruct (Manual.sendChunks polls env buf total remaining (S i) ch2 t1 _)
        as [[[ch3 t3] p3]|j ch3 t3].
      * destruct IH as (calls & Hlog3 & Hcalls & Hrs3 & Hp3).
        eexists (_ :: calls). split; [|split; [|split]].
        -- rewrite Hlog3. subst ch2. cbn. rewrite Hlog, <- app_assoc. done.
        -- by constructor.
        -- rewrite Hrs3. subst ch2. cbn. done.
        -- rewrite Hp3. destruct remaining; f_equal; lia.
      * destruct IH as (calls & Hlog3 & Hj & Hcalls & Hfull).
        eexists (_ :: calls). split; [|split; [|split]].
        -- rewrite Hlog3. subst ch2. cbn. rewrite Hlog, <- app_assoc. done.
        -- lia.
        -- replace (j - i) with (S (j - S i)) by lia. by constructor.
        -- done.
    + destruct Hw as (-> & _ & Hlog & Hfull).
      exists []. rewrite app_nil_r, Nat.sub_diag.
      repeat split; first [done | lia | constructor].
Qed.

Lemma chunkCalls_frames (buf : ArrayBuffer) (ixs : list nat)
    (calls : list SendCall) :
  Forall2 (chunkCall buf) ixs calls ->
  map frame calls = map BinaryFrame (map (chunkAt buf) ixs).
Proof.
  induction 1 as [|i s ixs calls [Hf _] _ IH]; [done|].
  cbn. by rewrite Hf, IH.
Qed.

Lemma Manual_sendFile_completed (polls : nat) (env : Transport)
    (channel : RTCDataChannel) (tick : nat) (c : Component) (file : File)
    (c' : Component) (ref' : option RTCDataChannel) (tick' : nat) :
  selectedFile c = Some file ->
  readyState channel = open ->
  Manual.sendFile polls env (Some channel) tick c = Completed (c', ref', tick') ->
  exists channel' q0 calls qE,
    ref' = Some channel' /\
    readyState channel' = open /\
    sendLog channel' =
      sendLog channel
      ++ [mkSendCall (TextFrame (FileStart (Manual.startMessage file))) q0]
      ++ calls ++ [mkSendCall (TextFrame FileEnd) qE] /\
    Forall2 (chunkCall (file_bytes file))
      (seq 0 (totalChunksOf (byteLength (file_bytes file)))) calls /\
    c' = afterSend file
           (finalProgress (totalChunksOf (byteLength (file_bytes file)))) c.
Proof.
  intros Hfile Hopen. unfold Manual.sendFile. rewrite Hfile.
  rewrite decide_False by (rewrite Hopen; intros ?; done).
  set (n := totalChunksOf (byteLength (file_bytes file))).
  set (ch1 := channel_send env channel _).
  pose proof (sendChunks_spec polls env (file_bytes file) n n 0 ch1 tick (Pnum 0))
    as Hs.
  destruct (Manual.sendChunks polls env (file_bytes file) n n 0 ch1 tick (Pnum 0))
    as [[[ch2 t2] p2]|j ch2 t2]; [|done].
  destruct Hs as (calls & Hlog & Hcalls & Hrs & Hp).
  intros [= <- <- <-].
  exists (channel_send env ch2 (TextFrame FileEnd)), (bufferedAmount channel),
    calls, (bufferedAmount ch2).
  repeat split.
  - cbn. rewrite Hrs. subst ch1. cbn. done.
  - cbn. rewrite Hlog. subst ch1. cbn. by rewrite <- !app_assoc.
  - done.
  - unfold afterSend, finalProgress. rewrite Hp. by destruct n.
Qed.

Lemma Manual_sendFile_frames (polls : nat) (env : Transport)
    (channel : RTCDataChannel) (tick : nat) (c : Component) (file : File)
    (c' : Component) (ref' : option RTCDataChannel) (tick' : nat) :
  selectedFile c = Some file ->
  readyState channel = open ->
  Manual.sendFile polls env (Some channel) tick c = Completed (c', ref', tick') ->
  exists channel',
    ref' = Some channel' /\
    sentFrames channel' = sentFrames channel ++ manualStream file.
Proof.
  intros Hfile Hopen Hsend.
  destruct (Manual_sendFile_completed _ _ _ _ _ _ _ _ _ Hfile Hopen Hsend)
    as (ch' & q0 & calls & qE & -> & _ & Hlog & Hcalls & _).
  exists ch'. split; [done|].
  unfold sentFrames, manualStream, chunksOf.
  rewrite Hlog, !map_app, (chunkCalls_frames _ _ _ Hcalls). done.
Qed.

(** Every chunk is handed to the channel within the gauge limit, whether the
    send completes or is still waiting for the queue to drain. *)
Lemma chunkCall_withinGauge (buf : ArrayBuffer) (i : nat) (s : SendCall) :
  chunkCall buf i s -> withinGauge s.
Proof.
  intros [Hf Hq]. unfold withinGauge. rewrite Hf.
  pose proof (chunkAt_length buf i). lia.
Qed.

Lemma chunkCalls_withinGauge (buf : ArrayBuffer) (ixs : list nat)
    (calls : list SendCall) :
  Forall2 (chunkCall buf) ixs calls -> Forall withinGauge calls.
Proof.
  induction 1; constructor; eauto using chunkCall_withinGauge.
Qed.

(** *** Termination of the send *)

Section Progressing.

Variable env : Transport.
(** The transport transmits at least one byte during every wait. *)
Hypothesis Hdrain : forall k, 1 <= drain env k.

Lemma awaitDrain_completes (polls i : nat) (channel : RTCDataChannel)
    (tick : nat) :
  bufferedAmount channel <= polls + CHUNK_SIZE * 4 ->
  exists channel' tick',
    Manual.awaitDrain polls env i channel tick = Completed (channel', tick').
Proof.
  revert channel tick.
  induction polls as [|polls IH]; intros channel tick Hq;
    rewrite awaitDrain_eq;
    destruct (Nat.ltb_spec (CHUNK_SIZE * 4) (bufferedAmount channel));
    eauto; [lia|].
  apply IH. cbn. specialize (Hdrain tick). lia.
Qed.

Lemma sendChunks_completes (polls : nat) (buf : ArrayBuffer)
    (total remaining i : nat) (channel : RTCDataChannel) (tick : nat)
    (progress : Progress) :
  CHUNK_SIZE <= polls ->
  bufferedAmount channel <= polls + CHUNK_SIZE * 4 ->
  exists r,
    Manual.sendChunks polls env buf total remaining i channel tick progress
    = Completed r.
Proof.
  intros Hpolls. revert i channel tick progress.
  induction remaining as [|remaining IH]; intros i channel tick progress Hq;
    cbn; [eauto|].
  destruct (awaitDrain_completes polls i channel tick Hq) as (ch1 & t1 & Hw).
  pose proof (awaitDrain_spec polls env i channel tick) as Hs.
  rewrite Hw in Hs |- *. destruct Hs as (_ & _ & Hle & _).
  apply IH. cbn. pose proof (chunkAt_length buf i). lia.
Qed.

Lemma Manual_sendFile_completes (polls : nat)
    (dataChannelRef : option RTCDataChannel) (tick : nat) (c : Component) :
  CHUNK_SIZE <= polls ->
  (forall channel file,
      dataChannelRef = Some channel -> selectedFile c = Some file ->
      bufferedAmount channel
      + textBytes env (FileStart (Manual.startMessage file))
      <= polls + CHUNK_SIZE * 4) ->
  exists r, Manual.sendFile polls env dataChannelRef tick c = Completed r.
Proof.
  intros Hpolls Hq. unfold Manual.sendFile.
  destruct dataChannelRef as [channel|]; [|eauto].
  destruct (selectedFile c) as [file|]; [|eauto].
  destruct (decide (readyState channel <> open)); [eauto|].
  specialize (Hq channel file eq_refl eq_refl).
  edestruct (sendChunks_completes polls (file_bytes file)) as [[[ch2 t2] p2] ->];
    [done | | eauto].
  cbn. lia.
Qed.

End Progressing.

(** ** The send loop of the PeerJS component *)

Lemma afterCalls_app (conn : DataConnection) (l1 l2 : list TransferMessage) :
  afterCalls (afterCalls conn l1) l2 = afterCalls conn (l1 ++ l2).
Proof.
  unfold afterCalls. cbn. destruct (conn_open conn); by rewrite <- ?app_assoc.
Qed.

Lemma App_send_eq (conn : DataConnection) (m : TransferMessage)
    (c : Component) :
  App.send conn m c = (afterCalls conn [m], sendErrors conn c).
Proof.
  unfold App.send, conn_send, afterCalls, sendErrors, App.onerror, notOpenError.
  by destruct (conn_open conn).
Qed.

Lemma sendErrors_afterCalls (conn : DataConnection)
    (msgs : list TransferMessage) (c : Component) :
  sendErrors (afterCalls conn msgs) c = sendErrors conn c.
Proof. reflexivity. Qed.

Lemma sendErrors_idem (conn : DataConnection) (c : Component) :
  sendErrors conn (sendErrors conn c) = sendErrors conn c.
Proof. unfold sendErrors. by destruct (conn_open conn). Qed.

Lemma sendErrors_setUploadProgress (conn : DataConnection) (p : Progress)
    (c : Component) :
  sendErrors conn (setUploadProgress p c)
  = setUploadProgress p (sendErrors conn c).
Proof. unfold sendErrors. by destruct (conn_open conn). Qed.

Lemma App_sendChunks_spec (buf : ArrayBuffer) (total remaining i : nat)
    (conn : DataConnection) (c : Component) :
  App.sendChunks buf total remaining i conn c =
  (afterCalls conn (map (chunkMessage buf) (seq i remaining)),
   match remaining with
   | 0 => c
   | S _ => setUploadProgress (Pround (i + remaining) total) (sendErrors conn c)
   end).
Proof.
  revert i conn c.
  induction remaining as [|remaining IH]; intros i conn c.
  - cbn. f_equal. unfold afterCalls. rewrite app_nil_r.
    destruct conn as [o calls tx]. cbn. destruct o; by rewrite ?app_nil_r.
  - cbn [App.sendChunks]. rewrite App_send_eq, IH, afterCalls_app.
    cbn [seq map app]. f_equal.
    destruct remaining.
    + reflexivity.
    + rewrite sendErrors_afterCalls, sendErrors_setUploadProgress,
        sendErrors_idem.
      replace (S i + S remaining) with (i + S (S remaining)) by lia.
      reflexivity.
Qed.

(** A complete send makes one call of [conn.send] per message of the
    stream.  On an open connection the stream is transmitted and the
    component shows the send; on a connection that is not open nothing is
    transmitted and the component shows the send and the connection's
    error. *)
Lemma App_sendFile_spec (conn : DataConnection) (c : Component) (file : File) :
  selectedFile c = Some file ->
  App.sendFile (Some conn) c =
  (sendErrors conn
     (afterSend file
        (finalProgress (totalChunksOf (byteLength (file_bytes file)))) c),
   Some (afterCalls conn (appStream file))).
Proof.
  intros Hfile. unfold App.sendFile. rewrite Hfile.
  rewrite App_send_eq, App_sendChunks_spec, App_send_eq, !afterCalls_app.
  unfold appStream. cbn [app]. f_equal.
  unfold afterSend, finalProgress, sendErrors.
  destruct (totalChunksOf (byteLength (file_bytes file))); cbn;
    by destruct (conn_open conn).
Qed.

(** ** Reassembly of a stream *)

Lemma Manual_receive_cons (now : nat) (f : Frame)
    (events : list (nat * Frame)) (c : Component) :
  Manual.receive ((now, f) :: events) c
  = Manual.receive events (Manual.onmessage now f c).
Proof. reflexivity. Qed.

Lemma Manual_receive_app (events1 events2 : list (nat * Frame)) (c : Component) :
  Manual.receive (events1 ++ events2) c
  = Manual.receive events2 (Manual.receive events1 c).
Proof. apply fold_left_app. Qed.

(** Binary frames that arrive during a transfer whose filled slots form a
    prefix fill the following slots in arrival order. *)
Lemma Manual_receive_binary (events : list (nat * Frame)) :
  forall (parts : list ArrayBuffer) (c : Component) (t : IncomingTransfer)
         (r : list ArrayBuffer) (m : nat),
    map snd events = map BinaryFrame parts ->
    incomingTransferRef c = Some t ->
    chunks t = map Some r ++ replicate m None ->
    receivedCount t = length r ->
    incomingTransferRef (Manual.receive events c) = Some
      {| name := name t; fileType := fileType t;
         totalChunks := totalChunks t; totalSize := totalSize t;
         chunks := map Some (r ++ parts) ++ replicate (m - length parts) None;
         receivedCount := length r + length parts |} /\
    error (Manual.receive events c) = error c /\
    selectedFile (Manual.receive events c) = selectedFile c /\
    receivedFiles (Manual.receive events c) = receivedFiles c /\
    uploadProgress (Manual.receive events c) = uploadProgress c /\
    transferStatus (Manual.receive events c) = transferStatus c.
Proof.
  induction events as [|[now f] events IH];
    intros [|p parts] c t r m Hev Hc Hch Hrc; try discriminate.
  - cbn. rewrite Hc, app_nil_r, Nat.sub_0_r, Nat.add_0_r, <- Hch, <- Hrc.
    by destruct t.
  - cbn in Hev. injection Hev as -> Hev.
    rewrite Manual_receive_cons.
    set (c1 := Manual.onmessage now (BinaryFrame p) c).
    assert (Hc1 : incomingTransferRef c1 = Some
              {| name := name t; fileType := fileType t;
                 totalChunks := totalChunks t; totalSize := totalSize t;
                 chunks := map Some (r ++ [p]) ++ replicate (m - 1) None;
                 receivedCount := length (r ++ [p]) |}).
    { subst c1. cbn. unfold Manual.handleChunkData. rewrite Hc. cbn.
      rewrite Hch, Hrc, array_set_next, length_app. done. }
    assert (Hsame : error c1 = error c /\ selectedFile c1 = selectedFile c /\
                    receivedFiles c1 = receivedFiles c /\
                    uploadProgress c1 = uploadProgress c /\
                    transferStatus c1 = transferStatus c).
    { subst c1. cbn. unfold Manual.handleChunkData. rewrite Hc. done. }
    destruct (IH parts c1 _ (r ++ [p]) (m - 1) Hev Hc1 eq_refl eq_refl)
      as (Href & He & Hs & Hf & Hu & Ht).
    destruct Hsame as (<- & <- & <- & <- & <-).
    repeat split; try done.
    rewrite Href. cbn. rewrite <- app_assoc, length_app. cbn.
    do 2 f_equal; [do 2 f_equal|]; lia.
Qed.

Lemma App_receive_cons (now : nat) (msg : TransferMessage)
    (events : list (nat * TransferMessage)) (c : Component) :
  App.receive ((now, msg) :: events) c
  = App.receive events (App.ondata now msg c).
Proof. reflexivity. Qed.

Lemma App_receive_app (events1 events2 : list (nat * TransferMessage))
    (c : Component) :
  App.receive (events1 ++ events2) c
  = App.receive events2 (App.receive events1 c).
Proof. apply fold_left_app. Qed.

(** Chunk messages whose indices continue the filled prefix, in increasing
    order, fill the following slots. *)
Lemma App_receive_indexed (events : list (nat * TransferMessage)) :
  forall (f : nat -> ArrayBuffer) (k : nat) (c : Component)
         (t : IncomingTransfer) (r : list ArrayBuffer) (m : nat),
    map snd events
    = map (fun i => FileChunk {| index := i; data := f i |}) (seq (length r) k) ->
    incomingTransferRef c = Some t ->
    chunks t = map Some r ++ replicate m None ->
    receivedCount t = length r ->
    incomingTransferRef (App.receive events c) = Some
      {| name := name t; fileType := fileType t;
         totalChunks := totalChunks t; totalSize := totalSize t;
         chunks := map Some (r ++ map f (seq (length r) k))
                   ++ replicate (m - k) None;
         receivedCount := length r + k |} /\
    error (App.receive events c) = error c /\
    selectedFile (App.receive events c) = selectedFile c /\
    receivedFiles (App.receive events c) = receivedFiles c /\
    uploadProgress (App.receive events c) = uploadProgress c /\
    transferStatus (App.receive events c) = transferStatus c.
Proof.
  induction events as [|[now msg] events IH];
    intros f [|k] c t r m Hev Hc Hch Hrc; try discriminate.
  - cbn. rewrite Hc, app_nil_r, Nat.sub_0_r, Nat.add_0_r, <- Hch, <- Hrc.
    by destruct t.
  - cbn in Hev. injection Hev as -> Hev.
    rewrite App_receive_cons.
    set (p := f (length r)).
    set (c1 := App.ondata now _ c).
    assert (Hlen : length (r ++ [p]) = S (length r))
      by (rewrite length_app; cbn; lia).
    assert (Hc1 : incomingTransferRef c1 = Some
              {| name := name t; fileType := fileType t;
                 totalChunks := totalChunks t; totalSize := totalSize t;
                 chunks := map Some (r ++ [p]) ++ replicate (m - 1) None;
                 receivedCount := length (r ++ [p]) |}).
    { subst c1. cbn. rewrite Hc. cbn.
      rewrite Hch, Hrc, array_set_next, length_app. done. }
    assert (Hsame : error c1 = error c /\ selectedFile c1 = selectedFile c /\
                    receivedFiles c1 = receivedFiles c /\
                    uploadProgress c1 = uploadProgress c /\
                    transferStatus c1 = transferStatus c).
    { subst c1. cbn. rewrite Hc. done. }
    rewrite <- Hlen in Hev.
    destruct (IH f k c1 _ (r ++ [p]) (m - 1) Hev Hc1 eq_refl eq_refl)
      as (Href & He & Hs & Hf & Hu & Ht).
    destruct Hsame as (<- & <- & <- & <- & <-).
    repeat split; try done.
    rewrite Href. cbn [name fileType totalChunks totalSize].
    rewrite Hlen, <- app_assoc. cbn [map seq app].
    subst p. f_equal. f_equal; [|lia]. do 2 f_equal. lia.
Qed.

(** The [End] step, in both components. *)
Lemma Manual_end_step (now : nat) (c : Component) (t : IncomingTransfer) :
  incomingTransferRef c = Some t ->
  Manual.onmessage now (TextFrame FileEnd) c
  = afterEnd (name t) (fileType t) (chunks t) now c.
Proof. intros Hc. cbn. by rewrite Hc. Qed.

Lemma App_end_step (now : nat) (c : Component) (t : IncomingTransfer) :
  incomingTransferRef c = Some t ->
  App.ondata now FileEnd c = afterEnd (name t) (fileType t) (chunks t) now c.
Proof. intros Hc. cbn. by rewrite Hc. Qed.

(** A whole transfer in the ordered variant: [Start], binary frames, [End]. *)
Lemma Manual_receive_transfer (t0 tE : nat) (m : FileStartMessage)
    (chunkEvents : list (nat * Frame)) (parts : list ArrayBuffer)
    (c : Component) :
  map snd chunkEvents = map BinaryFrame parts ->
  Manual.receive ((t0, TextFrame (FileStart m))
                  :: chunkEvents ++ [(tE, TextFrame FileEnd)]) c
  = afterEnd (start_name m) (start_fileType m)
      (map Some parts ++ replicate (start_totalChunks m - length parts) None)
      tE c.
Proof.
  intros Hev. rewrite Manual_receive_cons, Manual_receive_app.
  set (c1 := Manual.onmessage t0 (TextFrame (FileStart m)) c).
  destruct (Manual_receive_binary chunkEvents parts c1 _ [] (start_totalChunks m)
              Hev eq_refl eq_refl eq_refl)
    as (Href & He & Hs & Hf & Hu & Ht).
  change (Manual.receive [(tE, TextFrame FileEnd)] ?c2)
    with (Manual.onmessage tE (TextFrame FileEnd) c2).
  rewrite (Manual_end_step _ _ _ Href). unfold afterEnd, afterReceipt.
  rewrite He, Hs, Hf, Hu. done.
Qed.

(** A whole transfer in the indexed variant: [Start], the chunk messages
    [0 .. k-1] in order, [End]. *)
Lemma App_receive_transfer (t0 tE : nat) (m : FileStartMessage)
    (chunkEvents : list (nat * TransferMessage)) (f : nat -> ArrayBuffer)
    (k : nat) (c : Component) :
  map snd chunkEvents
  = map (fun i => FileChunk {| index := i; data := f i |}) (seq 0 k) ->
  App.receive ((t0, FileStart m) :: chunkEvents ++ [(tE, FileEnd)]) c
  = afterEnd (start_name m) (start_fileType m)
      (map Some (map f (seq 0 k)) ++ replicate (start_totalChunks m - k) None)
      tE c.
Proof.
  intros Hev. rewrite App_receive_cons, App_receive_app.
  set (c1 := App.ondata t0 (FileStart m) c).
  destruct (App_receive_indexed chunkEvents f k c1 _ [] (start_totalChunks m)
              Hev eq_refl eq_refl eq_refl)
    as (Href & He & Hs & Hf & Hu & Ht).
  change (App.receive [(tE, FileEnd)] ?c2) with (App.ondata tE FileEnd c2).
  rewrite (App_end_step _ _ _ Href). unfold afterEnd, afterReceipt.
  rewrite He, Hs, Hf, Hu. done.
Qed.

(** ** From the sender to the reassembler *)

(** Events whose payloads are [x], then [ys], then [z]. *)
Lemma events_split {A} (events : list (nat * A)) (x z : A) (ys : list A) :
  map snd events = x :: ys ++ [z] ->
  exists t0 mid tE,
    events = (t0, x) :: mid ++ [(tE, z)] /\ map snd mid = ys.
Proof.
  destruct events as [|[t0 x'] events]; [done|].
  cbn. intros [= -> Hrest].
  apply map_eq_app in Hrest as (mid & last & -> & Hmid & Hlast).
  destruct last as [|[tE z'] [|? ?]]; try discriminate.
  cbn in Hlast. injection Hlast as ->.
  by exists t0, mid, tE.
Qed.

Lemma Manual_roundtrip_stream (file : File) (events : list (nat * Frame))
    (c : Component) :
  map snd events = manualStream file ->
  exists now,
    Manual.receive events c
    = afterReceipt
        (receivedCopy file (Manual.typeOrDefault (file_type file)) now) c.
Proof.
  intros Hev. apply events_split in Hev as (t0 & mid & tE & -> & Hmid).
  exists tE. rewrite (Manual_receive_transfer _ _ _ _ _ _ Hmid).
  cbn [Manual.startMessage start_name start_fileType start_totalChunks].
  rewrite chunksOf_length, Nat.sub_diag. cbn [replicate].
  unfold afterEnd, receivedCopy.
  by rewrite app_nil_r, new_Blob_filled, chunksOf_concat.
Qed.

Lemma App_roundtrip_stream (file : File)
    (events : list (nat * TransferMessage)) (c : Component) :
  map snd events = appStream file ->
  exists now,
    App.receive events c
    = afterReceipt (receivedCopy file (file_type file) now) c.
Proof.
  intros Hev. apply events_split in Hev as (t0 & mid & tE & -> & Hmid).
  exists tE.
  rewrite (App_receive_transfer _ _ _ _ (chunkAt (file_bytes file)) _ _ Hmid).
  cbn [App.startMessage start_name start_fileType start_totalChunks].
  rewrite Nat.sub_diag. cbn [replicate].
  unfold afterEnd, receivedCopy.
  rewrite app_nil_r, new_Blob_filled.
  change (map (chunkAt (file_bytes file)) _) with (chunksOf (file_bytes file)).
  by rewrite chunksOf_concat.
Qed.

(** ** Reassembly by index, in any order *)

Lemma map_is_fmap {A B} (f : A -> B) (l : list A) : map f l = f <$> l.
Proof. induction l as [|x l IH]; [done|]. cbn. by rewrite IH. Qed.

Lemma placed_length (f : nat -> ArrayBuffer) (arrived : list nat) (n : nat) :
  length (placed f arrived n) = n.
Proof. unfold placed. by rewrite length_map, length_seq. Qed.

Lemma placed_lookup (f : nat -> ArrayBuffer) (arrived : list nat) (n j : nat) :
  placed f arrived n !! j
  = if decide (j < n)
    then Some (if decide (j ∈ arrived) then Some (f j) else None)
    else None.
Proof.
  unfold placed. rewrite map_is_fmap, list_lookup_fmap.
  destruct (decide (j < n)) as [Hlt|Hge].
  - by rewrite lookup_seq_lt.
  - by rewrite lookup_seq_ge by lia.
Qed.

Lemma placed_nil (f : nat -> ArrayBuffer) (n : nat) :
  placed f [] n = new_Array n.
Proof.
  apply list_eq. intros j. rewrite placed_lookup. unfold new_Array.
  destruct (decide (j < n)) as [Hlt|Hge].
  - rewrite lookup_replicate_2 by done.
    rewrite decide_False; [done|]. apply not_elem_of_nil.
  - symmetry. apply lookup_replicate_None. lia.
Qed.

Lemma placed_all (f : nat -> ArrayBuffer) (arrived : list nat) (n : nat) :
  (forall i, i < n -> i ∈ arrived) ->
  placed f arrived n = map Some (map f (seq 0 n)).
Proof.
  intros Hall. unfold placed. rewrite map_map.
  apply map_ext_in. intros i Hi%in_seq. by rewrite decide_True by (apply Hall; lia).
Qed.

(** Storing chunk [i] in a buffer of placed chunks. *)
Lemma array_set_placed (f : nat -> ArrayBuffer) (arrived : list nat)
    (n i : nat) :
  i < n ->
  array_set (placed f arrived n) i (f i) = placed f (arrived ++ [i]) n.
Proof.
  intros Hi. unfold array_set. rewrite placed_length, decide_True by done.
  apply list_eq. intros j. rewrite placed_lookup.
  destruct (decide (i = j)) as [<-|Hne].
  - rewrite list_lookup_insert_eq by (by rewrite placed_length).
    rewrite decide_True by done.
    rewrite decide_True; [done|]. apply elem_of_app. right. by apply list_elem_of_singleton.
  - rewrite list_lookup_insert_ne, placed_lookup by done.
    destruct (decide (j < n)); [|done]. f_equal.
    destruct (decide (j ∈ arrived)) as [Hin|Hnin].
    + rewrite decide_True; [done|]. apply elem_of_app. by left.
    + rewrite decide_False; [done|].
      intros [?|Hs%list_elem_of_singleton]%elem_of_app; [done|]. by subst.
Qed.

(** Chunk messages with indices inside the buffer place their chunks,
    whatever the order and whatever was placed before. *)
Lemma App_receive_placed (f : nat -> ArrayBuffer) (n : nat)
    (events : list (nat * TransferMessage)) :
  forall (idxs arrived : list nat) (c : Component) (t : IncomingTransfer),
    map snd events
    = map (fun i => FileChunk {| index := i; data := f i |}) idxs ->
    Forall (fun i => i < n) idxs ->
    incomingTransferRef c = Some t ->
    chunks t = placed f arrived n ->
    incomingTransferRef (App.receive events c) = Some
      {| name := name t; fileType := fileType t;
         totalChunks := totalChunks t; totalSize := totalSize t;
         chunks := placed f (arrived ++ idxs) n;
         receivedCount := receivedCount t + length idxs |} /\
    error (App.receive events c) = error c /\
    selectedFile (App.receive events c) = selectedFile c /\
    receivedFiles (App.receive events c) = receivedFiles c /\
    uploadProgress (App.receive events c) = uploadProgress c /\
    transferStatus (App.receive events c) = transferStatus c.
Proof.
  induction events as [|[now msg] events IH];
    intros [|i idxs] arrived c t Hev Hlt Hc Hch; try discriminate.
  - cbn. rewrite Hc, app_nil_r, Nat.add_0_r, <- Hch. by destruct t.
  - cbn in Hev. injection Hev as -> Hev.
    apply Forall_cons in Hlt as [Hi Hlt].
    rewrite App_receive_cons.
    set (c1 := App.ondata now _ c).
    assert (Hc1 : incomingTransferRef c1 = Some
              {| name := name t; fileType := fileType t;
                 totalChunks := totalChunks t; totalSize := totalSize t;
                 chunks := placed f (arrived ++ [i]) n;
                 receivedCount := receivedCount t + 1 |}).
    { subst c1. cbn. rewrite Hc. cbn. by rewrite Hch, array_set_placed. }
    assert (Hsame : error c1 = error c /\ selectedFile c1 = selectedFile c /\
                    receivedFiles c1 = receivedFiles c /\
                    uploadProgress c1 = uploadProgress c /\
                    transferStatus c1 = transferStatus c).
    { subst c1. cbn. rewrite Hc. done. }
    destruct (IH idxs (arrived ++ [i]) c1 _ Hev Hlt Hc1 eq_refl)
      as (Href & He & Hs & Hf & Hu & Ht).
    destruct Hsame as (<- & <- & <- & <- & <-).
    split; [|done].
    rewrite Href. cbn [name fileType totalChunks totalSize receivedCount length].
    rewrite <- app_assoc. cbn [app]. do 2 f_equal. lia.
Qed.

(** A whole transfer in the indexed variant, the chunk messages arriving
    in any order, each index below [totalChunks] at least once: the state
    when [End] arrives, and what [End] makes of it. *)
Lemma App_receive_any_order (m : FileStartMessage) (f : nat -> ArrayBuffer)
    (idxs : list nat) (t0 tE : nat)
    (chunkEvents : list (nat * TransferMessage)) (c : Component) :
  map snd chunkEvents
  = map (fun i => FileChunk {| index := i; data := f i |}) idxs ->
  (forall i, i ∈ idxs <-> i < start_totalChunks m) ->
  incomingTransferRef (App.receive ((t0, FileStart m) :: chunkEvents) c)
  = Some {| name := start_name m; fileType := start_fileType m;
            totalChunks := start_totalChunks m;
            totalSize := start_totalSize m;
            chunks := map Some (map f (seq 0 (start_totalChunks m)));
            receivedCount := length idxs |} /\
  App.receive ((t0, FileStart m) :: chunkEvents ++ [(tE, FileEnd)]) c
  = afterReceipt
      {| rf_name := start_name m;
         rf_data := {| blob_bytes := concat (map f (seq 0 (start_totalChunks m)));
                       blob_type := normalizeType (start_fileType m) |};
         rf_timestamp := tE |} c.
Proof.
  intros Hev Hidx.
  rewrite !App_receive_cons, App_receive_app.
  set (c1 := App.ondata t0 (FileStart m) c).
  edestruct (App_receive_placed f (start_totalChunks m) chunkEvents idxs [] c1)
    as (Href & He & Hs & Hf & Hu & Ht).
  - exact Hev.
  - apply Forall_forall. intros i Hi. by apply Hidx.
  - reflexivity.
  - cbn. by rewrite placed_nil.
  - rewrite placed_all in Href by (intros i Hi; by apply Hidx).
    split; [exact Href|].
    change (App.receive [(tE, FileEnd)] ?c2) with (App.ondata tE FileEnd c2).
    rewrite (App_end_step _ _ _ Href). unfold afterEnd, afterReceipt.
    rewrite He, Hs, Hf, Hu. cbn [name fileType chunks].
    by rewrite new_Blob_filled.
Qed.

(** The state of the ordered variant when [End] arrives after a [Start] and
    binary frames. *)
Lemma Manual_receive_chunks_state (t0 : nat) (m : FileStartMessage)
    (chunkEvents : list (nat * Frame)) (parts : list ArrayBuffer)
    (c : Component) :
  map snd chunkEvents = map BinaryFrame parts ->
  incomingTransferRef
    (Manual.receive ((t0, TextFrame (FileStart m)) :: chunkEvents) c)
  = Some {| name := start_name m; fileType := start_fileType m;
            totalChunks := start_totalChunks m;
            totalSize := start_totalSize m;
            chunks := map Some parts
                      ++ replicate (start_totalChunks m - length parts) None;
            receivedCount := length parts |}.
Proof.
  intros Hev. rewrite Manual_receive_cons.
  set (c1 := Manual.onmessage t0 (TextFrame (FileStart m)) c).
  by destruct (Manual_receive_binary chunkEvents parts c1 _ [] (start_totalChunks m)
                 Hev eq_refl eq_refl eq_refl) as (Href & _).
Qed.

(** The bytes of a blob are as many as the bytes of its parts. *)
Lemma length_concat_sum (parts : list ArrayBuffer) :
  length (concat parts) = list_sum (map length parts).
Proof.
  induction parts as [|p parts IH]; [done|].
  cbn. by rewrite length_app, IH.
Qed.

(** Lower-casing keeps a text within U+0020 to U+007E and does nothing to
    a text in lower case. *)
Lemma asciiLowercase_printable (a : ascii) :
  isPrintable a = true ->
  isPrintable (asciiLowercase a) = true /\
  asciiLowercase (asciiLowercase a) = asciiLowercase a.
Proof.
  intros Ha. unfold isPrintable, asciiLowercase in *.
  destruct ((65 <=? nat_of_ascii a) && (nat_of_ascii a <=? 90)) eqn:Hu;
    [|by rewrite Hu].
  apply andb_true_iff in Hu as [H1%Nat.leb_le H2%Nat.leb_le].
  rewrite nat_ascii_embedding by lia.
  split.
  - apply andb_true_iff. split; apply Nat.leb_le; lia.
  - replace ((65 <=? nat_of_ascii a + 32) && (nat_of_ascii a + 32 <=? 90))
      with false; [done|].
    symmetry. apply andb_false_iff. right. apply Nat.leb_gt. lia.
Qed.

Lemma lowercase_printable (t : string) :
  allPrintable t = true ->
  allPrintable (lowercase t) = true /\ lowercase (lowercase t) = lowercase t.
Proof.
  induction t as [|a t IH]; [done|].
  cbn [allPrintable lowercase]. intros [Ha Hp]%andb_true_iff.
  destruct (asciiLowercase_printable a Ha) as [Hpa Hla].
  destruct (IH Hp) as [Hpt Hlt].
  by rewrite Hpa, Hpt, Hla, Hlt.
Qed.

(** The type of a blob is a type that the constructor leaves as it is. *)
Lemma normalizeType_normalized (type : string) :
  normalized (normalizeType type).
Proof.
  unfold normalized, normalizeType.
  destruct (allPrintable type) eqn:Hp; [|done].
  destruct (lowercase_printable type Hp) as [-> ->]. done.
Qed.

(** * The claims *)

(** C9.  The chunk count announced by either [sendFile] is
    [Math.ceil(byteLength / CHUNK_SIZE)] with [CHUNK_SIZE] = 64 KiB = 65536:
    it is the least integer [k] with [byteLength <= k * CHUNK_SIZE] (it is
    below any [k] exactly when the byte length is at most [k] chunks, and
    exceeds the byte length by less than one chunk), and it is 0 exactly
    when the file is empty. *)
Theorem C9_totalChunks_is_ceiling (file : File) :
  let n := byteLength (file_bytes file) in
  start_totalChunks (Manual.startMessage file) = totalChunksOf n /\
  start_totalChunks (App.startMessage file) = totalChunksOf n /\
  start_totalSize (Manual.startMessage file) = n /\
  start_totalSize (App.startMessage file) = n /\
  Z.of_nat CHUNK_SIZE = (64 * 1024)%Z /\
  (forall k, totalChunksOf n <= k <-> n <= k * CHUNK_SIZE) /\
  totalChunksOf n * CHUNK_SIZE < n + CHUNK_SIZE /\
  (totalChunksOf n = 0 <-> n = 0).
Proof.
  intros n.
  split; [reflexivity|]. split; [reflexivity|].
  split; [reflexivity|]. split; [reflexivity|].
  split; [rewrite CHUNK_SIZE_value; lia|].
  split; [|split].
  - intros k. split.
    + intros Hk. destruct (totalChunksOf_bounds n) as [Hle _].
      pose proof CHUNK_SIZE_pos. nia.
    + apply totalChunksOf_least.
  - apply totalChunksOf_bounds.
  - apply totalChunksOf_zero.
Qed.

(** C1.  Round trip.  Whatever file is selected (of any size, zero
    included), the frames a completed [sendFile] puts on the channel, once
    delivered in order to a reassembler in any state, append one received
    file whose bytes are the bytes of the original file and leave the
    reassembler idle; in the ordered variant these frames are [Start], the
    64 KiB chunks in index order and [End], in the indexed variant the
    corresponding messages.  An empty file is sent as [Start] and [End] with
    no chunk, and still yields a completed (empty) file. *)
Theorem C1_split_reassemble_roundtrip (file : File) (sender : Component) :
  selectedFile sender = Some file ->
  (forall polls env channel tick sender' ref' tick',
      readyState channel = open ->
      Manual.sendFile polls env (Some channel) tick sender
        = Completed (sender', ref', tick') ->
      exists channel',
        ref' = Some channel' /\
        sentFrames channel' = sentFrames channel ++ manualStream file /\
        forall events receiver,
          map snd events = manualStream file ->
          exists now,
            Manual.receive events receiver
            = afterReceipt
                (receivedCopy file (Manual.typeOrDefault (file_type file)) now)
                receiver) /\
  (forall conn,
      exists conn',
        (App.sendFile (Some conn) sender).2 = Some conn' /\
        sendCalls conn' = sendCalls conn ++ appStream file /\
        forall events receiver,
          map snd events = appStream file ->
          exists now,
            App.receive events receiver
            = afterReceipt (receivedCopy file (file_type file) now) receiver) /\
  (file_bytes file = [] ->
     manualStream file
       = [TextFrame (FileStart (Manual.startMessage file)); TextFrame FileEnd] /\
     appStream file = [FileStart (App.startMessage file); FileEnd]).
Proof.
  intros Hfile. split; [|split].
  - intros polls env channel tick sender' ref' tick' Hopen Hsend.
    destruct (Manual_sendFile_frames _ _ _ _ _ _ _ _ _ Hfile Hopen Hsend)
      as (channel' & -> & Hframes).
    exists channel'. repeat split; [done|].
    intros events receiver. apply Manual_roundtrip_stream.
  - intros conn. rewrite (App_sendFile_spec conn sender file Hfile).
    eexists. split; [reflexivity|]. split; [done|].
    intros events receiver. apply App_roundtrip_stream.
  - intros Hempty. unfold manualStream, appStream, chunksOf.
    rewrite Hempty. cbn [byteLength length].
    by rewrite (proj2 (totalChunksOf_zero 0) eq_refl).
Qed.

Lemma C1_witness :
  selectedFile (selecting smallFile) = Some smallFile /\
  readyState freshChannel = open /\
  (exists channel',
      sentFrames channel' = sentFrames freshChannel ++ manualStream smallFile /\
      forall events receiver,
        map snd events = manualStream smallFile ->
        exists now,
          Manual.receive events receiver
          = afterReceipt (receivedCopy smallFile "text/plain" now) receiver) /\
  (exists conn',
      sendCalls conn' = [] ++ appStream smallFile /\
      forall events receiver,
        map snd events = appStream smallFile ->
        exists now,
          App.receive events receiver
          = afterReceipt (receivedCopy smallFile "text/plain" now) receiver).
Proof.
  pose proof (C1_split_reassemble_roundtrip smallFile (selecting smallFile)
                eq_refl) as (Hmanual & Happ & _).
  split; [reflexivity|]. split; [reflexivity|]. split.
  - destruct (Hmanual 0 steadyTransport freshChannel 0
                (afterSend smallFile (Pround 1 1) (selecting smallFile))
                (Some {| readyState := open;
                         bufferedAmount := 100 + 3 + 19;
                         sendLog :=
                           [ mkSendCall (TextFrame (FileStart
                                           (Manual.startMessage smallFile))) 0;
                             mkSendCall (BinaryFrame abc) 100;
                             mkSendCall (TextFrame FileEnd) (100 + 3) ] |})
                0 eq_refl) as (channel' & _ & Hframes & Hrecv).
    + vm_compute. reflexivity.
    + exists channel'. split; assumption.
  - destruct (Happ openConnection)
      as (conn' & _ & Hcalls & Hrecv).
    exists conn'. split; assumption.
Defined.

(** C8.  A send that passes the guards and completes makes exactly these
    calls on the channel, in this order: one [Start], one call per chunk
    ([totalChunks] of them, chunk 0 first), one [End].  Over a transport
    that keeps transmitting the send of the manual component does complete.
    A file of 200,000 bytes gives four chunk sends. *)
Theorem C8_send_order (file : File) (sender : Component) :
  selectedFile sender = Some file ->
  let buf := file_bytes file in
  (forall polls env channel tick sender' ref' tick',
      readyState channel = open ->
      Manual.sendFile polls env (Some channel) tick sender
        = Completed (sender', ref', tick') ->
      exists channel',
        ref' = Some channel' /\
        sentFrames channel' =
          sentFrames channel
          ++ [TextFrame (FileStart (Manual.startMessage file))]
          ++ map BinaryFrame (chunksOf buf)
          ++ [TextFrame FileEnd]) /\
  (forall env channel tick,
      (forall k, 1 <= drain env k) ->
      exists polls r,
        Manual.sendFile polls env (Some channel) tick sender = Completed r) /\
  (forall conn,
      exists conn',
        (App.sendFile (Some conn) sender).2 = Some conn' /\
        sendCalls conn' =
          sendCalls conn
          ++ [FileStart (App.startMessage file)]
          ++ map (chunkMessage buf) (seq 0 (totalChunksOf (byteLength buf)))
          ++ [FileEnd]) /\
  length (chunksOf buf) = totalChunksOf (byteLength buf) /\
  (byteLength buf = 200 * 1000 -> length (chunksOf buf) = 4).
Proof.
  intros Hfile buf. split; [|split; [|split; [|split]]].
  - intros polls env channel tick sender' ref' tick' Hopen Hsend.
    destruct (Manual_sendFile_frames _ _ _ _ _ _ _ _ _ Hfile Hopen Hsend)
      as (channel' & -> & Hframes).
    by exists channel'.
  - intros env channel tick Hdrain.
    exists (CHUNK_SIZE + bufferedAmount channel
            + textBytes env (FileStart (Manual.startMessage file))).
    apply Manual_sendFile_completes; [done | lia |].
    intros ch f [= <-]. rewrite Hfile. intros [= <-]. lia.
  - intros conn. rewrite (App_sendFile_spec conn sender file Hfile).
    eexists. split; reflexivity.
  - apply chunksOf_length.
  - intros Hsize. rewrite chunksOf_length, Hsize.
    pose proof CHUNK_SIZE_value.
    apply totalChunksOf_unique; lia.
Qed.

Lemma C8_witness :
  selectedFile (selecting smallFile) = Some smallFile /\
  exists channel',
    sentFrames channel' =
      sentFrames freshChannel
      ++ [TextFrame (FileStart (Manual.startMessage smallFile))]
      ++ map BinaryFrame (chunksOf (file_bytes smallFile))
      ++ [TextFrame FileEnd].
Proof.
  split; [reflexivity|].
  destruct (proj1 (C8_send_order smallFile (selecting smallFile) eq_refl)
              0 steadyTransport freshChannel 0
              (afterSend smallFile (Pround 1 1) (selecting smallFile))
              (Some {| readyState := open;
                       bufferedAmount := 100 + 3 + 19;
                       sendLog :=
                         [ mkSendCall (TextFrame (FileStart
                                         (Manual.startMessage smallFile))) 0;
                           mkSendCall (BinaryFrame abc) 100;
                           mkSendCall (TextFrame FileEnd) (100 + 3) ] |})
              0 eq_refl) as (channel' & _ & Hframes).
  - vm_compute. reflexivity.
  - exists channel'. exact Hframes.
Defined.

(** ** The reassembly buffer of the indexed variant *)

Lemma App_ondata_count (now : nat) (msg : TransferMessage) (c : Component) :
  (forall t, incomingTransferRef c = Some t ->
             nonEmptySlots (chunks t) <= receivedCount t) ->
  forall t, incomingTransferRef (App.ondata now msg c) = Some t ->
            nonEmptySlots (chunks t) <= receivedCount t.
Proof.
  intros Hinv t. destruct msg as [m|m|]; cbn.
  - intros [= <-]. cbn. unfold new_Array. by rewrite nonEmptySlots_holes.
  - destruct (incomingTransferRef c) as [t0|] eqn:Hc; cbn.
    + intros [= <-]. cbn. specialize (Hinv t0 eq_refl).
      pose proof (nonEmptySlots_array_set (chunks t0) (index m) (data m)). lia.
    + by rewrite Hc.
  - destruct (incomingTransferRef c) eqn:Hc; cbn; [done|]. by rewrite Hc.
Qed.

Lemma App_receive_count (events : list (nat * TransferMessage)) (c : Component) :
  (forall t, incomingTransferRef c = Some t ->
             nonEmptySlots (chunks t) <= receivedCount t) ->
  forall t, incomingTransferRef (App.receive events c) = Some t ->
            nonEmptySlots (chunks t) <= receivedCount t.
Proof.
  revert c. induction events as [|[now msg] events IH]; intros c Hinv; [done|].
  rewrite App_receive_cons. apply IH. by apply App_ondata_count.
Qed.

(** ** Which slots the indexed variant fills *)

Lemma filled_array_set {A} (a : JSArray A) (i j : nat) (v : A) :
  filled (array_set a i v) j <-> j = i \/ filled a j.
Proof.
  unfold filled, array_set.
  destruct (decide (i < length a)) as [Hlt|Hge].
  - destruct (decide (j = i)) as [->|Hne].
    + rewrite list_lookup_insert_eq by done. split; [by left | by eexists].
    + rewrite list_lookup_insert_ne by done. split; [by right | by intros [?|?]].
  - destruct (decide (j < length a)) as [Hj|Hj].
    + rewrite lookup_app_l by done.
      split; [by right | intros [->|?]; [lia|done]].
    + rewrite lookup_app_r by lia.
      assert (Hnot : ~ (exists x : A, a !! j = Some (Some x))).
      { intros [x Hx]. apply lookup_lt_Some in Hx. lia. }
      destruct (decide (j < i)) as [Hji|Hji].
      * rewrite lookup_app_l by (rewrite length_replicate; lia).
        rewrite lookup_replicate_2 by lia.
        split; [by intros [? [=]] | intros [->|?]; [lia|done]].
      * rewrite lookup_app_r by (rewrite length_replicate; lia).
        rewrite length_replicate.
        destruct (decide (j = i)) as [->|Hne].
        -- replace (i - length a - (i - length a)) with 0 by lia.
           split; [by left | by eexists].
        -- replace (j - length a - (i - length a)) with (S (j - i - 1)) by lia.
           cbn. split; [by intros [? [=]] | intros [->|?]; [lia|done]].
Qed.

(** Storing into a slot that is a hole, or beyond the end, adds one
    non-empty slot. *)
Lemma nonEmptySlots_array_set_new {A} (a : JSArray A) (i : nat) (v : A) :
  ~ filled a i ->
  nonEmptySlots (array_set a i v) = nonEmptySlots a + 1.
Proof.
  intros Hhole. unfold array_set.
  destruct (decide (i < length a)) as [Hlt|Hge].
  - destruct (lookup_lt_is_Some_2 a i Hlt) as [x Hx].
    destruct x as [x|]; [destruct Hhole; by exists x|].
    rewrite <- (take_drop i a) at 2.
    rewrite insert_take_drop by done.
    rewrite (drop_S a None i Hx).
    change (Some v :: drop (S i) a) with ([Some v] ++ drop (S i) a).
    change (None :: drop (S i) a) with (replicate 1 None ++ drop (S i) a).
    rewrite !nonEmptySlots_app, nonEmptySlots_holes.
    change (nonEmptySlots [Some v]) with (length (filter is_Some [Some v])).
    rewrite filter_cons_True by eauto. simpl. lia.
  - rewrite !nonEmptySlots_app, nonEmptySlots_holes.
    change (nonEmptySlots [Some v]) with (length (filter is_Some [Some v])).
    rewrite filter_cons_True by eauto. simpl. lia.
Qed.

Lemma array_set_length_inside {A} (a : JSArray A) (i : nat) (v : A) :
  i < length a -> length (array_set a i v) = length a.
Proof.
  intros Hlt. unfold array_set. rewrite decide_True by done.
  apply length_insert.
Qed.

(** An array has no hole exactly when it has as many non-empty slots as
    slots. *)
Lemma nonEmptySlots_full {A} (a : JSArray A) :
  nonEmptySlots a = length a <-> Forall is_Some a.
Proof.
  induction a as [|x a IH].
  - split; [constructor | done].
  - change (x :: a) with ([x] ++ a) at 1. rewrite nonEmptySlots_app.
    pose proof (nonEmptySlots_le_length a) as Hle.
    cbn [length]. rewrite Forall_cons, <- IH.
    destruct x as [x|].
    + change (nonEmptySlots [Some x]) with (length (filter is_Some [Some x])).
      rewrite filter_cons_True by eauto. cbn.
      split; [intros; split; [eauto|lia] | intros [_ ?]; lia].
    + change (nonEmptySlots [None]) with (nonEmptySlots (replicate 1 (@None A))).
      rewrite nonEmptySlots_holes.
      split; [lia | by intros [[? [=]] _]].
Qed.

Lemma sinceLastStart_snoc (msgs : list TransferMessage) (m : TransferMessage) :
  sinceLastStart (msgs ++ [m])
  = if isStart m then [] else sinceLastStart msgs ++ [m].
Proof. unfold sinceLastStart. by rewrite fold_left_app. Qed.

(** What the transfer in progress holds, in terms of the chunk messages
    that arrived since the last [Start]. *)
Lemma App_receive_indices (events : list (nat * TransferMessage))
    (c0 : Component) (t : IncomingTransfer) :
  idle c0 ->
  incomingTransferRef (App.receive events c0) = Some t ->
  let idxs := chunkIndices (sinceLastStart (map snd events)) in
  receivedCount t = length idxs /\
  (forall j, filled (chunks t) j <-> j ∈ idxs) /\
  (NoDup idxs -> nonEmptySlots (chunks t) = length idxs) /\
  (Forall (fun i => i < totalChunks t) idxs ->
   length (chunks t) = totalChunks t).
Proof.
  intros Hidle. revert t.
  induction events as [|[now msg] events IH] using rev_ind; intros t.
  - cbn. rewrite Hidle. discriminate.
  - rewrite App_receive_app, map_app. cbn [map snd].
    rewrite sinceLastStart_snoc.
    change (App.receive [(now, msg)] ?c) with (App.ondata now msg c).
    destruct msg as [m|m|]; cbn [isStart App.ondata].
    + intros [= <-]. cbn. split; [done|]. split; [|split].
      * intros j. unfold filled, new_Array. split.
        -- intros [x Hx]. apply lookup_replicate in Hx as [[=] _].
        -- intros []%elem_of_nil.
      * intros _. apply nonEmptySlots_holes.
      * intros _. apply new_Array_length.
    + destruct (incomingTransferRef (App.receive events c0)) as [t0|] eqn:Hc;
        [|by rewrite Hc].
      destruct (IH t0 eq_refl) as (Hrc & Hfill & Hnd & Hlen).
      intros [= <-]. unfold chunkIndices in *. rewrite omap_app. cbn.
      rewrite length_app. cbn [length].
      split; [lia|]. split; [|split].
      * intros j. rewrite filled_array_set, elem_of_app, list_elem_of_singleton, Hfill.
        tauto.
      * intros (Hnd0 & Hnew & _)%NoDup_app.
        rewrite nonEmptySlots_array_set_new, (Hnd Hnd0); [done|].
        intros Hf%Hfill. apply (Hnew _ Hf). by apply list_elem_of_singleton.
      * cbn [totalChunks chunks].
        intros [Hall Hi]%Forall_app. rewrite Forall_singleton in Hi.
        specialize (Hlen Hall).
        rewrite array_set_length_inside; [done|]. by rewrite Hlen.
    + destruct (incomingTransferRef (App.receive events c0)) eqn:Hc; cbn;
        [discriminate | by rewrite Hc].
Qed.

(** C2 (as stated, refuted).  In the indexed variant two chunk messages with
    the same index leave [receivedCount] = 2 = [totalChunks] while a single
    slot is non-empty and slot 1 is still a hole. *)
Lemma C2_counterexample :
  exists t,
    incomingTransferRef (App.receive repeatedIndexEvents initialComponent)
      = Some t /\
    receivedCount t = 2 /\ nonEmptySlots (chunks t) = 1 /\
    totalChunks t = 2 /\ chunks t = [Some [Byte.x62]; None] /\
    ~ bufferInvariant t.
Proof.
  eexists. split; [reflexivity|]. cbn.
  repeat split; try done.
  intros [Hcount _]. cbn in Hcount. discriminate.
Qed.

(** C2 (amended).  Starting from an idle reassembler and under any sequence
    of messages: in the ordered variant [receivedCount] is the number of
    non-empty slots, and the buffer consists of exactly the announced slots,
    all filled, precisely when [receivedCount = totalChunks]; in the indexed
    variant [receivedCount] is the number of chunk messages that arrived
    since the last [Start], so it is at least the number of non-empty
    slots, and it is that number as long as no index came twice; if moreover
    every index is below [totalChunks], the buffer is complete precisely
    when [receivedCount = totalChunks]. *)
Theorem C2_receivedCount_invariant (c0 : Component) :
  idle c0 ->
  (forall events t,
      incomingTransferRef (Manual.receive events c0) = Some t ->
      bufferInvariant t) /\
  (forall events t,
      incomingTransferRef (App.receive events c0) = Some t ->
      let idxs := chunkIndices (sinceLastStart (map snd events)) in
      receivedCount t = length idxs /\
      nonEmptySlots (chunks t) <= receivedCount t /\
      (NoDup idxs -> receivedCount t = nonEmptySlots (chunks t)) /\
      (NoDup idxs -> Forall (fun i => i < totalChunks t) idxs ->
       bufferInvariant t)).
Proof.
  intros Hidle. split.
  - intros events t Ht.
    assert (Hp : filledPrefix t).
    { eapply Manual_receive_filledPrefix; [|exact Ht].
      intros t0. rewrite Hidle. discriminate. }
    split; [by apply filledPrefix_count | by apply filledPrefix_complete].
  - intros events t Ht idxs.
    destruct (App_receive_indices events c0 t Hidle Ht)
      as (Hrc & _ & Hnd & Hlen).
    fold idxs in Hrc, Hnd, Hlen.
    split; [exact Hrc|]. split; [|split].
    + revert Ht. apply App_receive_count.
      intros t0. rewrite Hidle. discriminate.
    + intros Hdistinct. by rewrite Hrc, Hnd.
    + intros Hdistinct Hinside. specialize (Hnd Hdistinct).
      specialize (Hlen Hinside). split; [by rewrite Hrc, Hnd|].
      unfold complete. rewrite <- nonEmptySlots_full. split.
      * intros [Hl Hfull]. lia.
      * intros Heq. split; [done | lia].
Qed.

Lemma C2_witness :
  idle initialComponent /\
  (forall events t,
      incomingTransferRef (Manual.receive events initialComponent) = Some t ->
      bufferInvariant t) /\
  (forall events t,
      incomingTransferRef (App.receive events initialComponent) = Some t ->
      let idxs := chunkIndices (sinceLastStart (map snd events)) in
      receivedCount t = length idxs /\
      nonEmptySlots (chunks t) <= receivedCount t /\
      (NoDup idxs -> receivedCount t = nonEmptySlots (chunks t)) /\
      (NoDup idxs -> Forall (fun i => i < totalChunks t) idxs ->
       bufferInvariant t)) /\
  (exists t,
      incomingTransferRef (App.receive repeatedIndexEvents initialComponent)
        = Some t /\
      chunkIndices (sinceLastStart (map snd repeatedIndexEvents)) = [0; 0] /\
      receivedCount t = 2).
Proof.
  pose proof (C2_receivedCount_invariant initialComponent eq_refl)
    as [Hmanual Happ].
  split; [reflexivity|]. split; [exact Hmanual|]. split; [exact Happ|].
  eexists. split; [reflexivity|]. split; [reflexivity|].
  exact (proj1 (Happ repeatedIndexEvents _ eq_refl)).
Defined.

(** C3.  An [End] received during a transfer closes it whatever the buffer
    holds: no comparison of [receivedCount] with [totalChunks] is made, the
    blob built from the buffer is appended to the received files, and the
    transfer ref is cleared (progress and status are reset). *)
Theorem C3_end_assembles_without_check (now : nat) (c : Component)
    (t : IncomingTransfer) :
  incomingTransferRef c = Some t ->
  let rf := {| rf_name := name t;
               rf_data := new_Blob (chunks t) (fileType t);
               rf_timestamp := now |} in
  Manual.onmessage now (TextFrame FileEnd) c = afterReceipt rf c /\
  App.ondata now FileEnd c = afterReceipt rf c /\
  receivedFiles (afterReceipt rf c) = receivedFiles c ++ [rf] /\
  idle (afterReceipt rf c).
Proof.
  intros Hc rf. repeat split.
  - by rewrite (Manual_end_step _ _ _ Hc).
  - by rewrite (App_end_step _ _ _ Hc).
Qed.

Lemma C3_witness :
  incomingTransferRef (withTransfer (Some partialTransfer) initialComponent)
    = Some partialTransfer /\
  receivedCount partialTransfer < totalChunks partialTransfer /\
  let c := withTransfer (Some partialTransfer) initialComponent in
  let rf := {| rf_name := "f";
               rf_data := new_Blob [Some abc; None; None] "text/plain";
               rf_timestamp := 7 |} in
  Manual.onmessage 7 (TextFrame FileEnd) c = afterReceipt rf c /\
  App.ondata 7 FileEnd c = afterReceipt rf c /\
  receivedFiles (afterReceipt rf c) = receivedFiles c ++ [rf] /\
  idle (afterReceipt rf c).
Proof.
  split; [reflexivity|]. split; [cbn; lia|].
  exact (C3_end_assembles_without_check 7
           (withTransfer (Some partialTransfer) initialComponent)
           partialTransfer eq_refl).
Defined.

(** Reading a list back slot by slot. *)
Lemma map_nth_seq {A} (d : A) (l pre : list A) :
  map (fun i => nth i (pre ++ l) d) (seq (length pre) (length l)) = l.
Proof.
  revert pre. induction l as [|x l IH]; intros pre; [done|].
  cbn [length seq map]. rewrite nth_middle. f_equal.
  specialize (IH (pre ++ [x])).
  rewrite <- app_assoc, length_app in IH. cbn in IH.
  by rewrite Nat.add_1_r in IH.
Qed.

(** C4 (as stated, refuted).  After a [Start] that announces one chunk and
    ten bytes and one binary frame of a single byte, [receivedCount] equals
    [totalChunks]; the [End] then emits one file, of one byte, not ten. *)
Lemma C4_counterexample :
  let c := Manual.receive shortChunkEvents initialComponent in
  exists t rf,
    incomingTransferRef c = Some t /\
    receivedCount t = totalChunks t /\
    totalSize t = 10 /\
    receivedFiles (Manual.onmessage 2 (TextFrame FileEnd) c) = [rf] /\
    length (blob_bytes (rf_data rf)) = 1.
Proof. cbn. eexists _, _. repeat split. Qed.

(** C4 (amended).  When [End] arrives after a single [Start] and exactly
    [totalChunks] chunks (binary frames in the ordered variant; chunk
    messages that carry every index once, in any order, in the indexed
    one), [receivedCount] equals [totalChunks] and exactly one file is
    appended.  Its media type is the [fileType] of the [Start] as the blob
    constructor normalises it, which is the [fileType] itself when that is
    in lower case and within U+0020 to U+007E.  Its bytes are the received
    chunks in slot order, so its byte length is the total length of those
    chunks.  The announced [totalSize] is not consulted; the length equals
    it for the stream a [sendFile] of either component produces. *)
Theorem C4_end_after_all_chunks (m : FileStartMessage)
    (parts : list ArrayBuffer) (t0 tE : nat) :
  length parts = start_totalChunks m ->
  let rf := {| rf_name := start_name m;
               rf_data := {| blob_bytes := concat parts;
                             blob_type := normalizeType (start_fileType m) |};
               rf_timestamp := tE |} in
  (forall before chunkEvents c0,
      map snd chunkEvents = map BinaryFrame parts ->
      (exists t,
          incomingTransferRef
            (Manual.receive
               (before ++ (t0, TextFrame (FileStart m)) :: chunkEvents) c0)
          = Some t /\
          receivedCount t = totalChunks t) /\
      Manual.receive
        (before ++ (t0, TextFrame (FileStart m))
                   :: chunkEvents ++ [(tE, TextFrame FileEnd)]) c0
      = afterReceipt rf (Manual.receive before c0)) /\
  (forall before idxs chunkEvents c0,
      idxs ≡ₚ seq 0 (length parts) ->
      map snd chunkEvents
      = map (fun i => FileChunk {| index := i; data := nth i parts [] |}) idxs ->
      (exists t,
          incomingTransferRef
            (App.receive (before ++ (t0, FileStart m) :: chunkEvents) c0)
          = Some t /\
          receivedCount t = totalChunks t) /\
      App.receive (before ++ (t0, FileStart m) :: chunkEvents ++ [(tE, FileEnd)]) c0
      = afterReceipt rf (App.receive before c0)) /\
  (normalized (start_fileType m) ->
   blob_type (rf_data rf) = start_fileType m) /\
  length (blob_bytes (rf_data rf)) = list_sum (map length parts) /\
  (forall file events c,
      map snd events = manualStream file ->
      exists now,
        let copy :=
          receivedCopy file (start_fileType (Manual.startMessage file)) now in
        Manual.receive events c = afterReceipt copy c /\
        length (blob_bytes (rf_data copy))
        = start_totalSize (Manual.startMessage file) /\
        (normalized (file_type file) ->
         blob_type (rf_data copy) = start_fileType (Manual.startMessage file))) /\
  (forall file events c,
      map snd events = appStream file ->
      exists now,
        let copy :=
          receivedCopy file (start_fileType (App.startMessage file)) now in
        App.receive events c = afterReceipt copy c /\
        length (blob_bytes (rf_data copy))
        = start_totalSize (App.startMessage file) /\
        (normalized (file_type file) ->
         blob_type (rf_data copy) = start_fileType (App.startMessage file))).
Proof.
  intros Hlen rf. split; [|split; [|split; [|split; [|split]]]].
  - intros before chunkEvents c0 Hev.
    rewrite !Manual_receive_app. split.
    + rewrite (Manual_receive_chunks_state _ _ _ _ _ Hev).
      eexists. split; [reflexivity|]. exact Hlen.
    + rewrite (Manual_receive_transfer _ _ _ _ _ _ Hev).
      rewrite Hlen, Nat.sub_diag. cbn [replicate].
      unfold afterEnd. by rewrite app_nil_r, new_Blob_filled.
  - intros before idxs chunkEvents c0 Hperm Hev.
    assert (Hidx : forall i, i ∈ idxs <-> i < start_totalChunks m).
    { intros i. rewrite Hperm, elem_of_seq, Hlen. lia. }
    rewrite !App_receive_app.
    destruct (App_receive_any_order m (fun i => nth i parts []) idxs t0 tE
                chunkEvents (App.receive before c0) Hev Hidx) as [Href Hend].
    split.
    + rewrite Href. eexists. split; [reflexivity|]. cbn.
      by rewrite (Permutation_length Hperm), length_seq.
    + rewrite Hend. unfold rf. rewrite <- Hlen.
      pose proof (map_nth_seq [] parts []) as Hnth. cbn in Hnth.
      by rewrite Hnth.
  - intros Hnorm. exact Hnorm.
  - apply length_concat_sum.
  - intros file events c Hev.
    destruct (Manual_roundtrip_stream file events c Hev) as [now Hr].
    exists now. split; [exact Hr|]. split; [reflexivity|].
    intros Hnorm. unfold receivedCopy.
    cbn [rf_data blob_type Manual.startMessage start_fileType].
    unfold Manual.typeOrDefault.
    destruct (decide (file_type file = "")) as [He|Hne];
      [reflexivity | exact Hnorm].
  - intros file events c Hev.
    destruct (App_roundtrip_stream file events c Hev) as [now Hr].
    exists now. split; [exact Hr|]. split; [reflexivity|].
    intros Hnorm. exact Hnorm.
Qed.

Lemma C4_witness :
  let m := {| start_name := "ab"; start_fileType := "text/plain";
              start_totalChunks := 2; start_totalSize := 2 |} in
  let rf := {| rf_name := "ab";
               rf_data := {| blob_bytes := [Byte.x61; Byte.x62];
                             blob_type := "text/plain" |};
               rf_timestamp := 3 |} in
  length [[Byte.x61]; [Byte.x62]] = start_totalChunks m /\
  Manual.receive [(0, TextFrame (FileStart m)); (1, BinaryFrame [Byte.x61]);
                  (2, BinaryFrame [Byte.x62]); (3, TextFrame FileEnd)]
    initialComponent
  = afterReceipt rf initialComponent /\
  [1; 0] ≡ₚ seq 0 2 /\
  App.receive [(0, FileStart m);
               (1, FileChunk {| index := 1; data := [Byte.x62] |});
               (2, FileChunk {| index := 0; data := [Byte.x61] |});
               (3, FileEnd)] initialComponent
  = afterReceipt rf initialComponent.
Proof.
  intros m rf.
  pose proof (C4_end_after_all_chunks m [[Byte.x61]; [Byte.x62]] 0 3 eq_refl)
    as (Hmanual & Happ & _).
  split; [reflexivity|]. split; [|split].
  - exact (proj2 (Hmanual [] [(1, BinaryFrame [Byte.x61]);
                              (2, BinaryFrame [Byte.x62])]
                    initialComponent eq_refl)).
  - apply perm_swap.
  - exact (proj2 (Happ [] [1; 0]
                    [(1, FileChunk {| index := 1; data := [Byte.x62] |});
                     (2, FileChunk {| index := 0; data := [Byte.x61] |})]
                    initialComponent (perm_swap _ _ _) eq_refl)).
Defined.

(** C7.  A [Start] installs a transfer with a fresh buffer of [totalChunks]
    holes and [receivedCount] 0, whether or not a transfer was in progress;
    the component it leaves does not depend on the superseded transfer, so
    nothing of it can show in the buffer or in any file completed later. *)
Theorem C7_start_replaces_transfer (now : nat) (m : FileStartMessage)
    (old : IncomingTransfer) (c : Component) :
  let fresh := {| name := start_name m; fileType := start_fileType m;
                  totalChunks := start_totalChunks m;
                  totalSize := start_totalSize m;
                  chunks := new_Array (start_totalChunks m);
                  receivedCount := 0 |} in
  let receiving := withTransfer (Some old) c in
  incomingTransferRef (Manual.onmessage now (TextFrame (FileStart m)) receiving)
    = Some fresh /\
  incomingTransferRef (App.ondata now (FileStart m) receiving) = Some fresh /\
  length (chunks fresh) = start_totalChunks m /\
  nonEmptySlots (chunks fresh) = 0 /\
  (forall events,
      Manual.receive ((now, TextFrame (FileStart m)) :: events) receiving
      = Manual.receive ((now, TextFrame (FileStart m)) :: events)
          (withTransfer None c)) /\
  (forall events,
      App.receive ((now, FileStart m) :: events) receiving
      = App.receive ((now, FileStart m) :: events) (withTransfer None c)).
Proof.
  intros fresh receiving. repeat split.
  - apply new_Array_length.
  - apply nonEmptySlots_holes.
Qed.

(** C10.  While no transfer is in progress a chunk (a binary frame, or a
    ['file-chunk'] message in either component) changes nothing: the
    component is left as it was, so the run that follows, and the files it
    completes, are those of the run without that chunk.  After an [End] no
    transfer is in progress. *)
Theorem C10_chunk_without_transfer_ignored (c : Component) :
  idle c ->
  (forall now b, Manual.onmessage now (BinaryFrame b) c = c) /\
  (forall now m, Manual.onmessage now (TextFrame (FileChunk m)) c = c) /\
  (forall now m, App.ondata now (FileChunk m) c = c) /\
  (forall now b events,
      Manual.receive ((now, BinaryFrame b) :: events) c
      = Manual.receive events c) /\
  (forall now m events,
      App.receive ((now, FileChunk m) :: events) c = App.receive events c) /\
  (forall now c0,
      idle (Manual.onmessage now (TextFrame FileEnd) c0) /\
      idle (App.ondata now FileEnd c0)).
Proof.
  unfold idle. intros Hidle.
  assert (Hm : forall now b, Manual.onmessage now (BinaryFrame b) c = c).
  { intros now b. cbn. unfold Manual.handleChunkData. by rewrite Hidle. }
  assert (Ha : forall now m, App.ondata now (FileChunk m) c = c).
  { intros now m. cbn. by rewrite Hidle. }
  repeat split; try done.
  - intros now b events. by rewrite Manual_receive_cons, Hm.
  - intros now m events. by rewrite App_receive_cons, Ha.
  - cbn. by destruct (incomingTransferRef c0) eqn:Hc0.
  - cbn. by destruct (incomingTransferRef c0) eqn:Hc0.
Qed.

Lemma C10_witness :
  idle initialComponent /\
  Manual.onmessage 5 (BinaryFrame abc) initialComponent = initialComponent /\
  App.ondata 5 (FileChunk {| index := 0; data := abc |}) initialComponent
  = initialComponent.
Proof.
  pose proof (C10_chunk_without_transfer_ignored initialComponent eq_refl)
    as (Hm & _ & Ha & _).
  split; [reflexivity|]. split; [apply Hm | apply Ha].
Defined.

(** ** The queue gauge during a send *)

Lemma chunkAt_full (buf : ArrayBuffer) (i : nat) :
  (i + 1) * CHUNK_SIZE <= byteLength buf ->
  byteLength (chunkAt buf i) = CHUNK_SIZE.
Proof.
  unfold byteLength. intros Hle.
  rewrite chunkAt_take, length_take, length_drop. lia.
Qed.

Lemma sendChunks_S (polls : nat) (env : Transport) (buf : ArrayBuffer)
    (total remaining i : nat) (channel : RTCDataChannel) (tick : nat)
    (progress : Progress) :
  Manual.sendChunks polls env buf total (S remaining) i channel tick progress =
  match Manual.awaitDrain polls env i channel tick with
  | Suspended j ch t => Suspended j ch t
  | Completed (channel', tick') =>
      Manual.sendChunks polls env buf total remaining (S i)
        (channel_send env channel' (BinaryFrame (chunkAt buf i))) tick'
        (Pround (i + 1) total)
  end.
Proof. reflexivity. Qed.

Section Stalled.

Variable env : Transport.
(** The transport transmits nothing. *)
Hypothesis Hstalled : forall k, drain env k = 0.

Lemma transmit_nothing (channel : RTCDataChannel) :
  transmit channel 0 = channel.
Proof. destruct channel. unfold transmit. cbn. by rewrite Nat.sub_0_r. Qed.

Lemma awaitDrain_stalled (polls i : nat) (channel : RTCDataChannel)
    (tick : nat) :
  Manual.awaitDrain polls env i channel tick =
  if CHUNK_SIZE * 4 <? bufferedAmount channel
  then Suspended i channel (tick + polls)
  else Completed (channel, tick).
Proof.
  revert tick. induction polls as [|polls IH]; intros tick;
    rewrite awaitDrain_eq;
    destruct (Nat.ltb_spec (CHUNK_SIZE * 4) (bufferedAmount channel)) as [H|H];
    try done.
  - by rewrite Nat.add_0_r.
  - rewrite Hstalled, transmit_nothing, IH. f_equal. lia.
Qed.

(** With full chunks, the loop sends [k] of them while the queue is within
    the limit, then finds more than [CHUNK_SIZE * 4] bytes queued and stays
    suspended at chunk [i + k], however many polls it is given. *)
Lemma sendChunks_stalled (polls : nat) (buf : ArrayBuffer) (total k : nat) :
  forall (remaining i : nat) (channel : RTCDataChannel) (tick : nat)
         (progress : Progress),
    k <= remaining ->
    (i + S remaining) * CHUNK_SIZE <= byteLength buf ->
    bufferedAmount channel + k * CHUNK_SIZE <= CHUNK_SIZE * 5 ->
    CHUNK_SIZE * 4 < bufferedAmount channel + k * CHUNK_SIZE ->
    exists channel',
      Manual.sendChunks polls env buf total (S remaining) i channel tick progress
      = Suspended (i + k) channel' (tick + polls) /\
      bufferedAmount channel' = bufferedAmount channel + k * CHUNK_SIZE /\
      length (sendLog channel') = length (sendLog channel) + k.
Proof.
  induction k as [|k IH];
    intros remaining i channel tick progress Hk Hfull Hle Hgt;
    rewrite sendChunks_S, awaitDrain_stalled.
  - rewrite (proj2 (Nat.ltb_lt _ _)) by lia.
    exists channel. rewrite Nat.add_0_r. repeat split; lia.
  - rewrite (proj2 (Nat.ltb_ge _ _)) by lia.
    destruct remaining as [|remaining]; [lia|].
    assert (Hlen : byteLength (chunkAt buf i) = CHUNK_SIZE)
      by (apply chunkAt_full; lia).
    destruct (IH remaining (S i)
                (channel_send env channel (BinaryFrame (chunkAt buf i)))
                tick (Pround (i + 1) total)) as (ch' & -> & Hq & Hlog).
    + lia.
    + lia.
    + cbn [channel_send bufferedAmount frameBytes]. lia.
    + cbn [channel_send bufferedAmount frameBytes]. lia.
    + exists ch'. split; [f_equal; lia|].
      revert Hq Hlog. cbn [channel_send bufferedAmount frameBytes sendLog].
      rewrite length_app. cbn [length]. lia.
Qed.

Lemma Manual_sendFile_stalled (polls : nat) (channel : RTCDataChannel)
    (tick : nat) (sender : Component) (file : File) (n k g : nat) :
  selectedFile sender = Some file ->
  readyState channel = open ->
  byteLength (file_bytes file) = S n * CHUNK_SIZE ->
  bufferedAmount channel
  + textBytes env (FileStart (Manual.startMessage file)) = g ->
  k <= n ->
  g + k * CHUNK_SIZE <= CHUNK_SIZE * 5 ->
  CHUNK_SIZE * 4 < g + k * CHUNK_SIZE ->
  exists channel',
    Manual.sendFile polls env (Some channel) tick sender
    = Suspended k channel' (tick + polls) /\
    bufferedAmount channel' = g + k * CHUNK_SIZE.
Proof.
  intros Hfile Hopen Hsize Hg Hk Hle Hgt. unfold Manual.sendFile.
  rewrite Hfile, decide_False by (rewrite Hopen; intros ?; done).
  rewrite Hsize, (totalChunksOf_unique (S n * CHUNK_SIZE) (S n))
    by (pose proof CHUNK_SIZE_pos; lia).
  destruct (sendChunks_stalled polls (file_bytes file) (S n) k n 0
              (channel_send env channel
                 (TextFrame (FileStart (Manual.startMessage file))))
              tick (Pnum 0)) as (ch' & -> & Hq & _);
    cbn [channel_send bufferedAmount frameBytes] in *;
    rewrite ?Hg in *; try lia.
  exists ch'. by split.
Qed.

End Stalled.

(** C5 (as stated, refuted).  A file of six full chunks is sent on a fresh
    open channel over a transport that transmits nothing.  After [Start]
    (100 bytes of text) and four chunks the queue holds
    [100 + 4 * CHUNK_SIZE] bytes; the sender is then suspended before chunk
    4, and it still is, with the same queue, after two poll intervals and
    after a hundred. *)
Lemma C5_counterexample :
  (exists channel',
      Manual.sendFile 2 stalledTransport (Some freshChannel) 0 (selecting bigFile)
      = Suspended 4 channel' 2 /\
      bufferedAmount channel' = 100 + 4 * CHUNK_SIZE /\
      CHUNK_SIZE * 4 < 100 + 4 * CHUNK_SIZE) /\
  (exists channel',
      Manual.sendFile 100 stalledTransport (Some freshChannel) 0 (selecting bigFile)
      = Suspended 4 channel' 100 /\
      bufferedAmount channel' = 100 + 4 * CHUNK_SIZE /\
      CHUNK_SIZE * 4 < 100 + 4 * CHUNK_SIZE).
Proof.
  assert (Hrun : forall polls, exists channel',
             Manual.sendFile polls stalledTransport (Some freshChannel) 0
               (selecting bigFile) = Suspended 4 channel' (0 + polls) /\
             bufferedAmount channel' = 100 + 4 * CHUNK_SIZE).
  { intros polls.
    apply (Manual_sendFile_stalled stalledTransport (fun _ => eq_refl) polls
             freshChannel 0 (selecting bigFile) bigFile 5 4 100
             eq_refl eq_refl (length_replicate _ _) eq_refl);
      pose proof CHUNK_SIZE_value; lia. }
  split.
  - destruct (Hrun 2) as (ch & H & Hq).
    exists ch. split; [exact H|]. split; [exact Hq | lia].
  - destruct (Hrun 100) as (ch & H & Hq).
    exists ch. split; [exact H|]. split; [exact Hq | lia].
Qed.

(** C5 (amended).  In the manual-signaling sender every chunk is handed to
    the channel only after the drain loop has seen at most [CHUNK_SIZE * 4]
    bytes queued, so that at most [CHUNK_SIZE * 5] bytes are queued right
    after a chunk send; and as long as the send is suspended in the drain
    loop, more than [CHUNK_SIZE * 4] bytes are queued and nothing more is
    sent.  How long that lasts is the transport's doing. *)
Theorem C5_chunks_sent_within_gauge (polls : nat) (env : Transport)
    (channel : RTCDataChannel) (tick : nat) (sender : Component) :
  let out := Manual.sendFile polls env (Some channel) tick sender in
  exists channel' calls,
    channelOf out = Some channel' /\
    sendLog channel' = sendLog channel ++ calls /\
    Forall withinGauge calls /\
    (forall i ch t, out = Suspended i ch t -> CHUNK_SIZE * 4 < bufferedAmount ch).
Proof.
  unfold Manual.sendFile.
  destruct (selectedFile sender) as [file|].
  2: { exists channel, []. rewrite app_nil_r. by repeat split. }
  destruct (decide (readyState channel <> open)) as [Hclosed|Hopen].
  { exists channel, []. rewrite app_nil_r. by repeat split. }
  set (n := totalChunksOf (byteLength (file_bytes file))).
  set (ch1 := channel_send env channel _).
  pose proof (sendChunks_spec polls env (file_bytes file) n n 0 ch1 tick (Pnum 0))
    as Hs.
  destruct (Manual.sendChunks polls env (file_bytes file) n n 0 ch1 tick (Pnum 0))
    as [[[ch2 t2] p2]|j ch2 t2].
  - destruct Hs as (calls & Hlog & Hcalls & _).
    eexists _, (_ :: calls ++ [_]). split; [reflexivity|]. split; [|split].
    + cbn. rewrite Hlog. subst ch1. cbn. by rewrite <- !app_assoc.
    + constructor; [exact I|]. apply Forall_app. split.
      * eapply chunkCalls_withinGauge, Hcalls.
      * by repeat constructor.
    + done.
  - destruct Hs as (calls & Hlog & _ & Hcalls & Hfull).
    eexists _, (_ :: calls). split; [reflexivity|]. split; [|split].
    + rewrite Hlog. subst ch1. cbn. by rewrite <- app_assoc.
    + constructor; [exact I|]. eapply chunkCalls_withinGauge, Hcalls.
    + by intros i ch t [= _ <- _].
Qed.

(** ** Sending on a channel that is not open *)

(** The manual-signaling component rejects the send: only the error message
    changes, and nothing is sent. *)
Lemma Manual_sendFile_not_open (polls : nat) (env : Transport)
    (channel : RTCDataChannel) (tick : nat) (c : Component) :
  readyState channel <> open ->
  exists msg,
    msg <> "" /\
    Manual.sendFile polls env (Some channel) tick c
    = Completed (setError msg c, Some channel, tick).
Proof.
  intros Hclosed. unfold Manual.sendFile.
  destruct (selectedFile c) as [file|].
  - rewrite decide_True by done.
    exists "Data channel is not open". by split.
  - exists "No connection or file selected". by split.
Qed.

(** The PeerJS component does not look at [conn.open]: on a connection
    that is not open it goes through the whole send.  Every call of
    [conn.send] transmits nothing and raises the connection's error, which
    the listener shows; the progress, the status and the selection change
    as in a send that succeeds. *)
Lemma App_sendFile_not_open (conn : DataConnection) (c : Component)
    (file : File) :
  conn_open conn = false ->
  selectedFile c = Some file ->
  App.sendFile (Some conn) c
  = (setError notOpenError
       (afterSend file
          (finalProgress (totalChunksOf (byteLength (file_bytes file)))) c),
     Some {| conn_open := false;
             sendCalls := sendCalls conn ++ appStream file;
             transmitted := transmitted conn |}).
Proof.
  intros Hopen Hfile. rewrite (App_sendFile_spec conn c file Hfile).
  unfold sendErrors, afterCalls. by rewrite Hopen.
Qed.

(** C6 (the code at the failing input).  [App.sendFile] called with a
    selected three-byte file while the data connection is not open is not
    rejected: it calls [conn.send] for [Start], for the chunk and for
    [End], shows the upload as complete, sets the status of a send and
    clears the selection.  Nothing is transmitted, and the error shown is
    the one the connection raised at those calls.  On the same input the
    manual-signaling [sendFile] sets its error and does nothing else. *)
Theorem C6_App_sendFile_on_pending_connection :
  App.sendFile (Some pendingConnection) (selecting smallFile)
  = ({| error := "Connection error: Connection is not open. You should listen for the `open` event before sending messages.";
        selectedFile := None; receivedFiles := [];
        uploadProgress := Pround 1 1; downloadProgress := Pnum 0;
        transferStatus := "Sending: a.txt"; incomingTransferRef := None |},
     Some {| conn_open := false;
             sendCalls :=
               [ FileStart {| start_name := "a.txt";
                              start_fileType := "text/plain";
                              start_totalChunks := 1; start_totalSize := 3 |};
                 FileChunk {| index := 0; data := abc |};
                 FileEnd ];
             transmitted := [] |}) /\
  Manual.sendFile 0 steadyTransport (Some connectingChannel) 0 (selecting smallFile)
  = Completed
      ({| error := "Data channel is not open"; selectedFile := Some smallFile;
          receivedFiles := []; uploadProgress := Pnum 0;
          downloadProgress := Pnum 0; transferStatus := "";
          incomingTransferRef := None |},
       Some connectingChannel, 0).
Proof. split; vm_compute; reflexivity. Qed.

(** * Further properties of the transfer code *)

(** ** Sizes of the chunks *)

Lemma chunkAt_beyond (buf : ArrayBuffer) (i : nat) :
  totalChunksOf (byteLength buf) <= i -> chunkAt buf i = [].
Proof.
  intros Hi. rewrite chunkAt_take.
  destruct (totalChunksOf_bounds (byteLength buf)) as [Hle _].
  unfold byteLength in *.
  rewrite drop_ge by nia. apply take_nil.
Qed.

Lemma concat_byteLength (parts : list ArrayBuffer) :
  byteLength (concat parts) = list_sum (map byteLength parts).
Proof.
  unfold byteLength. induction parts as [|p parts IH]; [done|].
  cbn [concat map list_sum]. by rewrite length_app, IH.
Qed.

Lemma chunksOf_total_length (buf : ArrayBuffer) :
  list_sum (map byteLength (chunksOf buf)) = byteLength buf.
Proof. by rewrite <- concat_byteLength, chunksOf_concat. Qed.

(** X1.  Every chunk the send loops cut, except the last, has exactly
    [CHUNK_SIZE] bytes; the last one is not empty and has at most
    [CHUNK_SIZE] bytes; the sizes add up to the size of the file.  No chunk
    is cut past the end of the buffer. *)
Theorem chunk_sizes (buf : ArrayBuffer) :
  let n := totalChunksOf (byteLength buf) in
  (forall i, i + 1 < n -> byteLength (chunkAt buf i) = CHUNK_SIZE) /\
  (0 < n -> 0 < byteLength (chunkAt buf (n - 1)) <= CHUNK_SIZE) /\
  (forall i, n <= i -> chunkAt buf i = []) /\
  list_sum (map byteLength (chunksOf buf)) = byteLength buf.
Proof.
  intros n. destruct (totalChunksOf_bounds (byteLength buf)) as [Hle Hlt].
  fold n in Hle, Hlt. pose proof CHUNK_SIZE_pos as Hpos.
  split; [|split; [|split]].
  - intros i Hi. apply chunkAt_full. nia.
  - intros Hn. split; [|apply chunkAt_length].
    rewrite chunkAt_take. unfold byteLength in *.
    rewrite length_take, length_drop. nia.
  - apply chunkAt_beyond.
  - apply chunksOf_total_length.
Qed.

(** ** A stream that is cut short, in the ordered variant *)

Lemma map_replicate {A B} (f : A -> B) (k : nat) (x : A) :
  map f (replicate k x) = replicate k (f x).
Proof. induction k as [|k IH]; [done|]. cbn. by rewrite IH. Qed.

Lemma concat_replicate_length {A} (k : nat) (l : list A) :
  length (concat (replicate k l)) = k * length l.
Proof.
  induction k as [|k IH]; [done|]. cbn. by rewrite length_app, IH.
Qed.

Lemma new_Blob_prefix_bytes (parts : list ArrayBuffer) (k : nat) (type : string) :
  blob_bytes (new_Blob (map Some parts ++ replicate k None) type)
  = concat parts ++ concat (replicate k holeBytes).
Proof.
  unfold new_Blob. cbn [blob_bytes].
  rewrite map_app, concat_app, map_map, map_replicate. cbn [BlobPart_bytes].
  by rewrite map_id.
Qed.

(** X2.  In the ordered variant an [End] may come after any number of binary
    frames.  The file it completes holds the payloads in arrival order; when
    fewer frames than announced have arrived, each missing chunk shows as
    the nine bytes of the text "undefined" after them (and when more have
    arrived, all of them are in the file). *)
Theorem Manual_end_after_any_frames (m : FileStartMessage)
    (parts : list ArrayBuffer) (t0 tE : nat)
    (chunkEvents : list (nat * Frame)) (c : Component) :
  map snd chunkEvents = map BinaryFrame parts ->
  let missing := start_totalChunks m - length parts in
  exists rf,
    Manual.receive ((t0, TextFrame (FileStart m))
                    :: chunkEvents ++ [(tE, TextFrame FileEnd)]) c
    = afterReceipt rf c /\
    rf_name rf = start_name m /\
    blob_type (rf_data rf) = normalizeType (start_fileType m) /\
    blob_bytes (rf_data rf) = concat parts ++ concat (replicate missing holeBytes) /\
    byteLength (blob_bytes (rf_data rf))
    = list_sum (map byteLength parts) + 9 * missing.
Proof.
  intros Hev missing.
  rewrite (Manual_receive_transfer _ _ _ _ _ _ Hev). unfold afterEnd.
  eexists. split; [reflexivity|]. cbn [rf_name rf_data].
  split; [done|]. split; [done|].
  rewrite new_Blob_prefix_bytes. split; [done|].
  unfold byteLength at 1.
  rewrite length_app, concat_replicate_length.
  change (length (concat parts)) with (byteLength (concat parts)).
  rewrite concat_byteLength. change (length holeBytes) with 9. lia.
Qed.

Lemma Manual_end_after_any_frames_witness :
  let m := {| start_name := "f"; start_fileType := "text/plain";
              start_totalChunks := 3; start_totalSize := 9 |} in
  map snd [(1, BinaryFrame abc)] = map BinaryFrame [abc] /\
  exists rf,
    Manual.receive [(0, TextFrame (FileStart m)); (1, BinaryFrame abc);
                    (2, TextFrame FileEnd)] initialComponent
    = afterReceipt rf initialComponent /\
    blob_bytes (rf_data rf) = abc ++ holeBytes ++ holeBytes /\
    byteLength (blob_bytes (rf_data rf)) = 21.
Proof.
  intros m. split; [reflexivity|].
  destruct (Manual_end_after_any_frames m [abc] 0 2 [(1, BinaryFrame abc)]
              initialComponent eq_refl) as (rf & Hr & _ & _ & Hb & Hl).
  exists rf. split; [exact Hr|]. split; [exact Hb | exact Hl].
Defined.

(** ** Files are completed by [End] only *)

Lemma Manual_step_files (now : nat) (f : Frame) (c : Component) :
  exists new,
    receivedFiles (Manual.onmessage now f c) = receivedFiles c ++ new /\
    length new + inProgress (Manual.onmessage now f c)
    <= inProgress c + (if isStartFrame f then 1 else 0) /\
    length new <= (if isEndFrame f then 1 else 0).
Proof.
  unfold inProgress.
  destruct f as [[m|m|]|b]; cbn; unfold Manual.handleChunkData;
    destruct (incomingTransferRef c) as [t|] eqn:Hc; cbn; rewrite ?Hc;
    try (exists []; rewrite app_nil_r; cbn; split; [done | lia]).
  eexists [_]. cbn. split; [done | lia].
Qed.

Lemma App_step_files (now : nat) (msg : TransferMessage) (c : Component) :
  exists new,
    receivedFiles (App.ondata now msg c) = receivedFiles c ++ new /\
    length new + inProgress (App.ondata now msg c)
    <= inProgress c + (if isStart msg then 1 else 0) /\
    length new <= (if isEnd msg then 1 else 0).
Proof.
  unfold inProgress.
  destruct msg as [m|m|]; cbn;
    destruct (incomingTransferRef c) as [t|] eqn:Hc; cbn; rewrite ?Hc;
    try (exists []; rewrite app_nil_r; cbn; split; [done | lia]).
  eexists [_]. cbn. split; [done | lia].
Qed.

(** X3.  Received files are only ever appended, one per [End] that arrives while
    a transfer is in progress: a run appends at most as many files as it has
    [End] messages, and at most as many as it has [Start] messages (plus one
    if a transfer was already in progress).  In particular a run without
    [End] completes no file, however many chunks arrive. *)
Theorem receivedFiles_growth :
  (forall events c,
      exists new,
        receivedFiles (Manual.receive events c) = receivedFiles c ++ new /\
        length new <= countIf isEndFrame (map snd events) /\
        length new <= countIf isStartFrame (map snd events) + inProgress c) /\
  (forall events c,
      exists new,
        receivedFiles (App.receive events c) = receivedFiles c ++ new /\
        length new <= countIf isEnd (map snd events) /\
        length new <= countIf isStart (map snd events) + inProgress c).
Proof.
  unfold countIf. split.
  - induction events as [|[now f] events IH]; intros c.
    + exists []. rewrite app_nil_r. cbn. split; [done | lia].
    + rewrite Manual_receive_cons.
      destruct (Manual_step_files now f c) as (new1 & H1 & Hs1 & He1).
      destruct (IH (Manual.onmessage now f c)) as (new2 & H2 & He2 & Hs2).
      exists (new1 ++ new2). rewrite H2, H1, <- app_assoc, length_app.
      cbn [map snd List.filter].
      split; [done|].
      destruct (isEndFrame f), (isStartFrame f); cbn [length]; lia.
  - induction events as [|[now msg] events IH]; intros c.
    + exists []. rewrite app_nil_r. cbn. split; [done | lia].
    + rewrite App_receive_cons.
      destruct (App_step_files now msg c) as (new1 & H1 & Hs1 & He1).
      destruct (IH (App.ondata now msg c)) as (new2 & H2 & He2 & Hs2).
      exists (new1 ++ new2). rewrite H2, H1, <- app_assoc, length_app.
      cbn [map snd List.filter].
      split; [done|].
      destruct (isEnd msg), (isStart msg); cbn [length]; lia.
Qed.

(** ** Reassembly by index, in any order: the whole file *)

(** The file of the example has two chunks, the second one short. *)
Lemma twoChunkFile_chunks :
  totalChunksOf (byteLength (file_bytes twoChunkFile)) = 2 /\
  chunkAt (file_bytes twoChunkFile) 0 = replicate CHUNK_SIZE Byte.x61 /\
  chunkAt (file_bytes twoChunkFile) 1 = [Byte.x62].
Proof.
  pose proof CHUNK_SIZE_pos as Hpos.
  cbn [twoChunkFile file_bytes]. split; [|split].
  - apply totalChunksOf_unique; unfold byteLength;
      rewrite length_app, length_replicate; cbn [length]; lia.
  - rewrite chunkAt_take, Nat.mul_0_l, drop_0.
    apply take_app_length'. by rewrite length_replicate.
  - rewrite chunkAt_take, Nat.mul_1_l.
    rewrite drop_app_length' by (by rewrite length_replicate).
    apply take_ge. cbn [length]. lia.
Qed.

(** X4.  The indexed variant does not depend on the order of arrival: if the
    chunk messages of a file arrive between its [Start] and [End] in any
    order, each at least once, the completed file is a byte-for-byte copy of
    the original. *)
Theorem App_reassembly_any_order (file : File) (idxs : list nat)
    (t0 tE : nat) (chunkEvents : list (nat * TransferMessage)) (c : Component) :
  map snd chunkEvents = map (chunkMessage (file_bytes file)) idxs ->
  (forall i, i ∈ idxs <-> i < totalChunksOf (byteLength (file_bytes file))) ->
  App.receive ((t0, FileStart (App.startMessage file))
               :: chunkEvents ++ [(tE, FileEnd)]) c
  = afterReceipt (receivedCopy file (file_type file) tE) c.
Proof.
  intros Hev Hidx.
  destruct (App_receive_any_order (App.startMessage file)
              (chunkAt (file_bytes file)) idxs t0 tE chunkEvents c Hev Hidx)
    as [_ ->].
  unfold receivedCopy.
  cbn [App.startMessage start_name start_fileType start_totalChunks].
  change (map (chunkAt (file_bytes file)) (seq 0 _))
    with (chunksOf (file_bytes file)).
  by rewrite chunksOf_concat.
Qed.

Lemma App_reassembly_any_order_witness :
  let buf := file_bytes twoChunkFile in
  totalChunksOf (byteLength buf) = 2 /\
  chunkAt buf 0 = replicate CHUNK_SIZE Byte.x61 /\
  chunkAt buf 1 = [Byte.x62] /\
  map snd [(1, chunkMessage buf 1); (2, chunkMessage buf 0)]
    = map (chunkMessage buf) [1; 0] /\
  (forall i, i ∈ [1; 0] <-> i < totalChunksOf (byteLength buf)) /\
  App.receive [(0, FileStart (App.startMessage twoChunkFile));
               (1, chunkMessage buf 1); (2, chunkMessage buf 0);
               (3, FileEnd)] initialComponent
  = afterReceipt (receivedCopy twoChunkFile "" 3) initialComponent.
Proof.
  intros buf.
  destruct twoChunkFile_chunks as (Hn & H0 & H1).
  assert (Hidx : forall i, i ∈ [1; 0] <-> i < totalChunksOf (byteLength buf)).
  { intros i. subst buf. rewrite Hn, !elem_of_cons, elem_of_nil. lia. }
  split; [exact Hn|]. split; [exact H0|]. split; [exact H1|].
  split; [reflexivity|]. split; [exact Hidx|].
  exact (App_reassembly_any_order twoChunkFile [1; 0] 0 3
           [(1, chunkMessage buf 1); (2, chunkMessage buf 0)]
           initialComponent eq_refl Hidx).
Defined.

(** ** Sending and receiving on the same component *)

Lemma Manual_onmessage_sameReassembler (now : nat) (f : Frame)
    (c c' : Component) :
  sameReassembler c c' ->
  sameReassembler (Manual.onmessage now f c) (Manual.onmessage now f c').
Proof.
  intros [Hr Hf]. unfold sameReassembler.
  destruct f as [[m|m|]|b]; cbn; unfold Manual.handleChunkData;
    rewrite <- ?Hr; destruct (incomingTransferRef c) eqn:Hc; cbn;
    rewrite ?Hf; rewrite <- ?Hr, ?Hc; done.
Qed.

Lemma App_ondata_sameReassembler (now : nat) (msg : TransferMessage)
    (c c' : Component) :
  sameReassembler c c' ->
  sameReassembler (App.ondata now msg c) (App.ondata now msg c').
Proof.
  intros [Hr Hf]. unfold sameReassembler.
  destruct msg as [m|m|]; cbn;
    rewrite <- ?Hr; destruct (incomingTransferRef c) eqn:Hc; cbn;
    rewrite ?Hf; rewrite <- ?Hr, ?Hc; done.
Qed.

Lemma Manual_receive_sameReassembler (events : list (nat * Frame))
    (c c' : Component) :
  sameReassembler c c' ->
  sameReassembler (Manual.receive events c) (Manual.receive events c').
Proof.
  revert c c'. induction events as [|[now f] events IH]; intros c c' H; [done|].
  rewrite !Manual_receive_cons. by apply IH, Manual_onmessage_sameReassembler.
Qed.

Lemma App_receive_sameReassembler (events : list (nat * TransferMessage))
    (c c' : Component) :
  sameReassembler c c' ->
  sameReassembler (App.receive events c) (App.receive events c').
Proof.
  revert c c'. induction events as [|[now msg] events IH]; intros c c' H; [done|].
  rewrite !App_receive_cons. by apply IH, App_ondata_sameReassembler.
Qed.

(** What a [sendFile] that returns leaves of the reassembler. *)
Lemma Manual_sendFile_sameReassembler (polls : nat) (env : Transport)
    (dataChannelRef : option RTCDataChannel) (tick : nat) (c c' : Component)
    (ref' : option RTCDataChannel) (tick' : nat) :
  Manual.sendFile polls env dataChannelRef tick c = Completed (c', ref', tick') ->
  sameReassembler c' c /\ downloadProgress c' = downloadProgress c.
Proof.
  unfold Manual.sendFile, sameReassembler.
  destruct dataChannelRef as [channel|]; [|by intros [= <- _ _]].
  destruct (selectedFile c) as [file|]; [|by intros [= <- _ _]].
  destruct (decide (readyState channel <> open)); [by intros [= <- _ _]|].
  destruct (Manual.sendChunks _ _ _ _ _ _ _ _ _) as [[[ch2 t2] p2]|j ch2 t2];
    [|done].
  by intros [= <- _ _].
Qed.

Lemma App_sendFile_sameReassembler (connectionRef : option DataConnection)
    (c : Component) :
  sameReassembler (App.sendFile connectionRef c).1 c /\
  downloadProgress (App.sendFile connectionRef c).1 = downloadProgress c.
Proof.
  unfold sameReassembler.
  destruct connectionRef as [conn|]; [|done].
  destruct (selectedFile c) as [file|] eqn:Hfile.
  - rewrite (App_sendFile_spec conn c file Hfile). unfold sendErrors.
    by destruct (conn_open conn).
  - unfold App.sendFile. by rewrite Hfile.
Qed.

(** X5.  Sending never disturbs reception, and reception never disturbs the
    sender's side.  A [sendFile] that returns leaves the transfer in
    progress, the received files and the download progress as they were, so
    every later run of the reassembler completes the same files as if
    nothing had been sent; and no incoming message changes the error, the
    selected file or the upload progress. *)
Theorem send_and_receive_independent :
  (forall polls env dataChannelRef tick c c' ref' tick' events,
      Manual.sendFile polls env dataChannelRef tick c
        = Completed (c', ref', tick') ->
      sameReassembler c' c /\
      downloadProgress c' = downloadProgress c /\
      sameReassembler (Manual.receive events c') (Manual.receive events c)) /\
  (forall connectionRef c events,
      let c' := (App.sendFile connectionRef c).1 in
      sameReassembler c' c /\
      downloadProgress c' = downloadProgress c /\
      sameReassembler (App.receive events c') (App.receive events c)) /\
  (forall events c,
      error (Manual.receive events c) = error c /\
      selectedFile (Manual.receive events c) = selectedFile c /\
      uploadProgress (Manual.receive events c) = uploadProgress c) /\
  (forall events c,
      error (App.receive events c) = error c /\
      selectedFile (App.receive events c) = selectedFile c /\
      uploadProgress (App.receive events c) = uploadProgress c).
Proof.
  split; [|split; [|split]].
  - intros polls env ref tick c c' ref' tick' events Hsend.
    destruct (Manual_sendFile_sameReassembler _ _ _ _ _ _ _ _ Hsend) as [Hs Hd].
    split; [done|]. split; [done|]. by apply Manual_receive_sameReassembler.
  - intros ref c events c'.
    destruct (App_sendFile_sameReassembler ref c) as [Hs Hd].
    split; [done|]. split; [done|]. by apply App_receive_sameReassembler.
  - induction events as [|[now f] events IH]; intros c; [done|].
    rewrite Manual_receive_cons.
    destruct (IH (Manual.onmessage now f c)) as (-> & -> & ->).
    destruct f as [[m|m|]|b]; cbn; unfold Manual.handleChunkData;
      destruct (incomingTransferRef c); done.
  - induction events as [|[now msg] events IH]; intros c; [done|].
    rewrite App_receive_cons.
    destruct (IH (App.ondata now msg c)) as (-> & -> & ->).
    destruct msg as [m|m|]; cbn; destruct (incomingTransferRef c); done.
Qed.

Lemma send_and_receive_independent_witness :
  let receiving := withTransfer (Some partialTransfer) (selecting smallFile) in
  let sent := afterSend smallFile (Pround 1 1) receiving in
  let channel' :=
    {| readyState := open; bufferedAmount := 100 + 3 + 19;
       sendLog :=
         [ mkSendCall (TextFrame (FileStart (Manual.startMessage smallFile))) 0;
           mkSendCall (BinaryFrame abc) 100;
           mkSendCall (TextFrame FileEnd) (100 + 3) ] |} in
  Manual.sendFile 0 steadyTransport (Some freshChannel) 0 receiving
    = Completed (sent, Some channel', 0) /\
  sentFrames channel' = manualStream smallFile /\
  sameReassembler
    (Manual.receive [(1, BinaryFrame abc)] sent)
    (Manual.receive [(1, BinaryFrame abc)] receiving) /\
  App.sendFile (Some openConnection) receiving
    = (sent, Some {| conn_open := true; sendCalls := appStream smallFile;
                     transmitted := appStream smallFile |}) /\
  sameReassembler
    (App.receive [(1, chunkMessage abc 1)]
       (App.sendFile (Some openConnection) receiving).1)
    (App.receive [(1, chunkMessage abc 1)] receiving).
Proof.
  intros receiving sent channel'.
  assert (Hsend : Manual.sendFile 0 steadyTransport (Some freshChannel) 0
                    receiving
                  = Completed (sent, Some channel', 0))
    by (vm_compute; reflexivity).
  split; [exact Hsend|]. split; [vm_compute; reflexivity|]. split; [|split].
  - exact (proj2 (proj2 (proj1 send_and_receive_independent _ _ _ _ _ _ _ _
                           [(1, BinaryFrame abc)] Hsend))).
  - vm_compute. reflexivity.
  - exact (proj2 (proj2 (proj1 (proj2 send_and_receive_independent)
                           (Some openConnection) receiving
                           [(1, chunkMessage abc 1)]))).
Defined.

(** ** Sending twice, and two files in a row *)

(** X6.  A completed send clears the selection, so a second call of [sendFile]
    right after it sends nothing: it only reports that no file is
    selected. *)
Theorem sendFile_again_is_rejected :
  (forall polls env channel tick c c' ref' tick' polls2,
      readyState channel = open ->
      is_Some (selectedFile c) ->
      Manual.sendFile polls env (Some channel) tick c
        = Completed (c', ref', tick') ->
      Manual.sendFile polls2 env ref' tick' c'
      = Completed (setError "No connection or file selected" c', ref', tick')) /\
  (forall conn c,
      is_Some (selectedFile c) ->
      let r := App.sendFile (Some conn) c in
      App.sendFile r.2 r.1
      = (setError "No connection or file selected" r.1, r.2)).
Proof.
  split.
  - intros polls env channel tick c c' ref' tick' polls2 Hopen [file Hfile] Hsend.
    destruct (Manual_sendFile_completed _ _ _ _ _ _ _ _ _ Hfile Hopen Hsend)
      as (ch' & q0 & calls & qE & -> & _ & _ & _ & ->).
    reflexivity.
  - intros conn c [file Hfile] r. subst r.
    rewrite (App_sendFile_spec conn c file Hfile). unfold sendErrors.
    by destruct (conn_open conn).
Qed.

Lemma sendFile_again_is_rejected_witness :
  let sent := afterSend smallFile (Pround 1 1) (selecting smallFile) in
  let channel' :=
    {| readyState := open; bufferedAmount := 100 + 3 + 19;
       sendLog :=
         [ mkSendCall (TextFrame (FileStart (Manual.startMessage smallFile))) 0;
           mkSendCall (BinaryFrame abc) 100;
           mkSendCall (TextFrame FileEnd) (100 + 3) ] |} in
  readyState freshChannel = open /\
  is_Some (selectedFile (selecting smallFile)) /\
  Manual.sendFile 0 steadyTransport (Some freshChannel) 0 (selecting smallFile)
    = Completed (sent, Some channel', 0) /\
  Manual.sendFile 0 steadyTransport (Some channel') 0 sent
    = Completed (setError "No connection or file selected" sent,
                 Some channel', 0) /\
  sentFrames channel' = manualStream smallFile /\
  let r := App.sendFile (Some openConnection) (selecting smallFile) in
  r = (sent, Some {| conn_open := true; sendCalls := appStream smallFile;
                     transmitted := appStream smallFile |}) /\
  App.sendFile r.2 r.1 = (setError "No connection or file selected" r.1, r.2).
Proof.
  intros sent channel'.
  assert (Hsome : is_Some (selectedFile (selecting smallFile))) by (by eexists).
  assert (Hsend : Manual.sendFile 0 steadyTransport (Some freshChannel) 0
                    (selecting smallFile)
                  = Completed (sent, Some channel', 0))
    by (vm_compute; reflexivity).
  split; [reflexivity|]. split; [exact Hsome|]. split; [exact Hsend|].
  split; [|split; [vm_compute; reflexivity|]].
  - exact (proj1 sendFile_again_is_rejected 0 steadyTransport freshChannel 0
             (selecting smallFile) sent (Some channel') 0 0
             eq_refl Hsome Hsend).
  - intros r. split; [vm_compute; reflexivity|].
    exact (proj2 sendFile_again_is_rejected openConnection
             (selecting smallFile) Hsome).
Defined.

Lemma map_snd_app_split {A} (events : list (nat * A)) (xs ys : list A) :
  map snd events = xs ++ ys ->
  exists e1 e2, events = e1 ++ e2 /\ map snd e1 = xs /\ map snd e2 = ys.
Proof. apply map_eq_app. Qed.

(** X7.  Two files sent one after the other on the same channel arrive as two
    received files, in the order of sending, each a copy of its original. *)
Theorem two_files_in_a_row (file1 file2 : File) :
  (forall events c,
      map snd events = manualStream file1 ++ manualStream file2 ->
      exists now1 now2,
        Manual.receive events c
        = afterReceipt
            (receivedCopy file2 (Manual.typeOrDefault (file_type file2)) now2)
            (afterReceipt
               (receivedCopy file1 (Manual.typeOrDefault (file_type file1)) now1)
               c)) /\
  (forall events c,
      map snd events = appStream file1 ++ appStream file2 ->
      exists now1 now2,
        App.receive events c
        = afterReceipt (receivedCopy file2 (file_type file2) now2)
            (afterReceipt (receivedCopy file1 (file_type file1) now1) c)).
Proof.
  split; intros events c Hev;
    apply map_snd_app_split in Hev as (e1 & e2 & -> & H1 & H2).
  - destruct (Manual_roundtrip_stream file1 e1 c H1) as [now1 Hr1].
    destruct (Manual_roundtrip_stream file2 e2 (Manual.receive e1 c) H2)
      as [now2 Hr2].
    exists now1, now2. by rewrite Manual_receive_app, Hr2, Hr1.
  - destruct (App_roundtrip_stream file1 e1 c H1) as [now1 Hr1].
    destruct (App_roundtrip_stream file2 e2 (App.receive e1 c) H2)
      as [now2 Hr2].
    exists now1, now2. by rewrite App_receive_app, Hr2, Hr1.
Qed.

Lemma two_files_in_a_row_witness :
  let events :=
    [ (0, TextFrame (FileStart (Manual.startMessage smallFile)));
      (1, BinaryFrame abc); (2, TextFrame FileEnd);
      (3, TextFrame (FileStart (Manual.startMessage smallFile)));
      (4, BinaryFrame abc); (5, TextFrame FileEnd) ] in
  map snd events = manualStream smallFile ++ manualStream smallFile /\
  exists now1 now2,
    Manual.receive events initialComponent
    = afterReceipt (receivedCopy smallFile "text/plain" now2)
        (afterReceipt (receivedCopy smallFile "text/plain" now1)
           initialComponent).
Proof.
  intros events.
  assert (Hev : map snd events = manualStream smallFile ++ manualStream smallFile)
    by (vm_compute; reflexivity).
  split; [exact Hev|].
  exact (proj1 (two_files_in_a_row smallFile smallFile) events
           initialComponent Hev).
Defined.

(** ** A file that fits under the gauge limit *)

Lemma chunkAt_byteLength (buf : ArrayBuffer) (i : nat) :
  byteLength (chunkAt buf i)
  = Nat.min CHUNK_SIZE (byteLength buf - i * CHUNK_SIZE).
Proof.
  rewrite chunkAt_take. unfold byteLength. by rewrite length_take, length_drop.
Qed.

Lemma awaitDrain_within (polls : nat) (env : Transport) (i : nat)
    (channel : RTCDataChannel) (tick : nat) :
  bufferedAmount channel <= CHUNK_SIZE * 4 ->
  Manual.awaitDrain polls env i channel tick = Completed (channel, tick).
Proof.
  intros Hq. rewrite awaitDrain_eq.
  by rewrite (proj2 (Nat.ltb_ge _ _) Hq).
Qed.

Lemma sendChunks_never_waits (polls : nat) (env : Transport)
    (buf : ArrayBuffer) (total : nat) :
  forall (remaining i : nat) (channel : RTCDataChannel) (tick : nat)
         (progress : Progress),
    bufferedAmount channel + (byteLength buf - i * CHUNK_SIZE)
    <= CHUNK_SIZE * 4 ->
    exists channel' progress',
      Manual.sendChunks polls env buf total remaining i channel tick progress
      = Completed (channel', tick, progress') /\
      bufferedAmount channel'
      = bufferedAmount channel
        + list_sum (map byteLength (map (chunkAt buf) (seq i remaining))).
Proof.
  induction remaining as [|remaining IH]; intros i channel tick progress Hq.
  - exists channel, progress. cbn. split; [done | lia].
  - rewrite sendChunks_S, awaitDrain_within by lia.
    pose proof (chunkAt_byteLength buf i) as Hlen.
    destruct (IH (S i) (channel_send env channel (BinaryFrame (chunkAt buf i)))
                tick (Pround (i + 1) total)) as (ch' & p' & -> & Hb).
    + cbn [channel_send bufferedAmount frameBytes].
      replace (S i * CHUNK_SIZE) with (i * CHUNK_SIZE + CHUNK_SIZE) by lia.
      lia.
    + exists ch', p'. split; [done|]. rewrite Hb.
      cbn [channel_send bufferedAmount frameBytes seq map].
      change (list_sum (?x :: ?l)) with (x + list_sum l). lia.
Qed.

(** X8.  When what is queued, the [Start] text and the whole file together stay
    within [CHUNK_SIZE * 4] bytes, the send never enters a timer wait: it
    returns at the tick it began, whatever the transport does, having queued
    [Start], every byte of the file and [End]. *)
Theorem Manual_small_send_never_waits (polls : nat) (env : Transport)
    (channel : RTCDataChannel) (tick : nat) (c : Component) (file : File) :
  selectedFile c = Some file ->
  readyState channel = open ->
  bufferedAmount channel
  + textBytes env (FileStart (Manual.startMessage file))
  + byteLength (file_bytes file) <= CHUNK_SIZE * 4 ->
  exists channel' progress,
    Manual.sendFile polls env (Some channel) tick c
    = Completed (afterSend file progress c, Some channel', tick) /\
    bufferedAmount channel'
    = bufferedAmount channel
      + textBytes env (FileStart (Manual.startMessage file))
      + byteLength (file_bytes file)
      + textBytes env FileEnd /\
    sentFrames channel' = sentFrames channel ++ manualStream file.
Proof.
  intros Hfile Hopen Hq.
  set (n := totalChunksOf (byteLength (file_bytes file))).
  set (ch1 := channel_send env channel
                (TextFrame (FileStart (Manual.startMessage file)))).
  destruct (sendChunks_never_waits polls env (file_bytes file) n n 0 ch1 tick
              (Pnum 0)) as (ch2 & p2 & Hloop & Hb).
  { subst ch1. cbn [channel_send bufferedAmount frameBytes]. lia. }
  assert (Hsend : Manual.sendFile polls env (Some channel) tick c
                  = Completed (afterSend file p2 c,
                               Some (channel_send env ch2 (TextFrame FileEnd)),
                               tick)).
  { unfold Manual.sendFile. rewrite Hfile.
    rewrite decide_False by (rewrite Hopen; intros ?; done).
    fold n. fold ch1. by rewrite Hloop. }
  exists (channel_send env ch2 (TextFrame FileEnd)), p2.
  split; [exact Hsend|]. split.
  - cbn [channel_send bufferedAmount frameBytes]. rewrite Hb.
    change (map (chunkAt (file_bytes file)) (seq 0 n))
      with (chunksOf (file_bytes file)).
    rewrite chunksOf_total_length. subst ch1.
    cbn [channel_send bufferedAmount frameBytes]. lia.
  - destruct (Manual_sendFile_frames _ _ _ _ _ _ _ _ _ Hfile Hopen Hsend)
      as (ch' & [= <-] & Hframes).
    exact Hframes.
Qed.

Lemma Manual_small_send_never_waits_witness :
  selectedFile (selecting smallFile) = Some smallFile /\
  readyState freshChannel = open /\
  exists channel' progress,
    Manual.sendFile 0 stalledTransport (Some freshChannel) 0 (selecting smallFile)
    = Completed (afterSend smallFile progress (selecting smallFile),
                 Some channel', 0) /\
    bufferedAmount channel' = 0 + 100 + 3 + 19.
Proof.
  split; [reflexivity|]. split; [reflexivity|].
  destruct (Manual_small_send_never_waits 0 stalledTransport freshChannel 0
              (selecting smallFile) smallFile eq_refl eq_refl)
    as (ch' & p & Hsend & Hb & _).
  - cbn [freshChannel bufferedAmount stalledTransport textBytes
         Manual.startMessage smallFile file_bytes byteLength abc length].
    pose proof CHUNK_SIZE_value. lia.
  - exists ch', p. split; [exact Hsend | exact Hb].
Defined.

(** * Properties of the stored form submissions *)

Lemma getSubmissions_insert (l : list Storage.FormSubmission)
    (store : Storage.LocalStorage) :
  Storage.getSubmissions
    (<[Storage.STORAGE_KEY := Storage.SubmissionsJSON l]> store) = l.
Proof. unfold Storage.getSubmissions. by rewrite lookup_insert_eq. Qed.

(** X11.  Saving appends.  Whatever is stored under the key (nothing, an empty
    text, a text that does not parse, or a list), after [saveSubmission] the
    stored list is the list [getSubmissions] read before followed by the new
    submission, which carries the form data, the decimal text of the clock
    as id and the given ISO date; the submission returned is the one stored,
    and no other key of the storage is touched. *)
Theorem storage_save_appends (now : nat) (iso : string)
    (data : Storage.FormData) (store : Storage.LocalStorage) :
  let saved := Storage.saveSubmission now iso data store in
  Storage.getSubmissions saved.2 = Storage.getSubmissions store ++ [saved.1] /\
  saved.1 = {| Storage.sub_id := pretty now;
               Storage.sub_name := Storage.form_name data;
               Storage.sub_email := Storage.form_email data;
               Storage.sub_message := Storage.form_message data;
               Storage.sub_createdAt := iso |} /\
  (forall k, k <> Storage.STORAGE_KEY -> saved.2 !! k = store !! k).
Proof.
  cbn. split; [apply getSubmissions_insert|]. split; [done|].
  intros k Hk. by rewrite lookup_insert_ne.
Qed.

(** Filtering by id keeps every copy of a submission with another id. *)
Lemma filter_other_id_copies (id : string) (sub : Storage.FormSubmission)
    (l : list Storage.FormSubmission) :
  Storage.sub_id sub <> id ->
  length (filter (fun s => s = sub)
            (filter (fun s => Storage.sub_id s <> id) l))
  = length (filter (fun s => s = sub) l).
Proof.
  intros Hid. induction l as [|s l IH]; [done|].
  destruct (decide (Storage.sub_id s <> id)) as [Hs|Hs].
  - rewrite (filter_cons_True (fun s => Storage.sub_id s <> id)) by done.
    destruct (decide (s = sub)) as [->|Hne].
    + rewrite !(filter_cons_True (fun s => s = sub)) by done.
      cbn [length]. by rewrite IH.
    + by rewrite !(filter_cons_False (fun s => s = sub)) by done.
  - rewrite (filter_cons_False (fun s => Storage.sub_id s <> id)) by done.
    rewrite (filter_cons_False (fun s => s = sub)); [done|].
    intros ->. by apply Hs.
Qed.

(** X12.  Deleting by id.  After [deleteSubmission id] the stored list is the
    list stored before without the submissions that have that id: no stored
    submission has the id, every submission with another id is still
    stored, as many times as before and in the same order; deleting an id
    that is not stored keeps the list, deleting twice is deleting once, and
    no other key is touched. *)
Theorem storage_delete (id : string) (store : Storage.LocalStorage) :
  let before := Storage.getSubmissions store in
  let after := Storage.getSubmissions (Storage.deleteSubmission id store) in
  after = filter (fun sub => Storage.sub_id sub <> id) before /\
  (forall sub, sub ∈ after <-> sub ∈ before /\ Storage.sub_id sub <> id) /\
  (forall sub, Storage.sub_id sub <> id ->
               length (filter (fun s => s = sub) after)
               = length (filter (fun s => s = sub) before)) /\
  after `sublist_of` before /\
  ((forall sub, sub ∈ before -> Storage.sub_id sub <> id) -> after = before) /\
  Storage.deleteSubmission id (Storage.deleteSubmission id store)
  = Storage.deleteSubmission id store /\
  (forall k, k <> Storage.STORAGE_KEY ->
             Storage.deleteSubmission id store !! k = store !! k).
Proof.
  intros before after.
  assert (Hafter : after = filter (fun sub => Storage.sub_id sub <> id) before)
    by apply getSubmissions_insert.
  split; [exact Hafter|].
  split; [|split; [|split; [|split; [|split]]]].
  - intros sub. rewrite Hafter, list_elem_of_filter. tauto.
  - intros sub Hid. rewrite Hafter. by apply filter_other_id_copies.
  - rewrite Hafter. apply sublist_filter.
  - intros Hnone. rewrite Hafter.
    clear Hafter after. induction before as [|sub l IH]; [done|].
    rewrite filter_cons_True by (apply Hnone; left).
    f_equal. apply IH. intros s Hs. apply Hnone. by right.
  - unfold Storage.deleteSubmission at 1. fold after.
    unfold Storage.deleteSubmission. fold before.
    rewrite insert_insert_eq, Hafter. do 2 f_equal.
    apply list_filter_filter_l. tauto.
  - intros k Hk. unfold Storage.deleteSubmission. by rewrite lookup_insert_ne.
Qed.

(** X13.  Saving then deleting.  Deleting the id of a submission just saved
    removes it, together with every earlier submission that has the same
    id; so it restores the earlier list exactly when that id was not in use.
    The id is the decimal text of the clock: two submissions saved at
    different clock values have different ids, and deleting the later one
    keeps the earlier; two saved at the same clock value share their id, and
    deleting one deletes both. *)
Theorem storage_save_then_delete (iso1 iso2 : string)
    (data1 data2 : Storage.FormData) (store : Storage.LocalStorage) :
  let others now :=
    filter (fun sub => Storage.sub_id sub <> pretty now)
           (Storage.getSubmissions store) in
  (forall now,
      Storage.getSubmissions
        (Storage.deleteSubmission (pretty now)
           (Storage.saveSubmission now iso1 data1 store).2)
      = others now) /\
  (forall now,
      (forall sub, sub ∈ Storage.getSubmissions store ->
                   Storage.sub_id sub <> pretty now) ->
      Storage.getSubmissions
        (Storage.deleteSubmission (pretty now)
           (Storage.saveSubmission now iso1 data1 store).2)
      = Storage.getSubmissions store) /\
  (forall now1 now2,
      now1 <> now2 ->
      Storage.getSubmissions
        (Storage.deleteSubmission (pretty now2)
           (Storage.saveSubmission now2 iso2 data2
              (Storage.saveSubmission now1 iso1 data1 store).2).2)
      = others now2 ++ [newSubmission now1 iso1 data1]) /\
  (forall now,
      Storage.getSubmissions
        (Storage.deleteSubmission (pretty now)
           (Storage.saveSubmission now iso2 data2
              (Storage.saveSubmission now iso1 data1 store).2).2)
      = others now).
Proof.
  intros others.
  assert (Hdel : forall id s,
             Storage.getSubmissions (Storage.deleteSubmission id s)
             = filter (fun sub => Storage.sub_id sub <> id)
                      (Storage.getSubmissions s))
    by (intros; apply getSubmissions_insert).
  assert (Hsave : forall now iso data s,
             Storage.getSubmissions (Storage.saveSubmission now iso data s).2
             = Storage.getSubmissions s ++ [newSubmission now iso data])
    by (intros; apply getSubmissions_insert).
  assert (Hsame : forall now iso data,
             filter (fun sub => Storage.sub_id sub <> pretty now)
                    [newSubmission now iso data] = []).
  { intros. by rewrite filter_cons_False by (cbn; tauto). }
  assert (Hdiff : forall now now' iso data,
             now <> now' ->
             filter (fun sub => Storage.sub_id sub <> pretty now')
                    [newSubmission now iso data] = [newSubmission now iso data]).
  { intros now now' iso data Hne.
    rewrite filter_cons_True; [done|]. cbn. intros Heq.
    by apply (inj pretty) in Heq. }
  split; [|split; [|split]].
  - intros now. by rewrite Hdel, Hsave, filter_app, Hsame, app_nil_r.
  - intros now Hfresh. rewrite Hdel, Hsave, filter_app, Hsame, app_nil_r.
    induction (Storage.getSubmissions store) as [|sub l IH]; [done|].
    rewrite filter_cons_True by (apply Hfresh; left).
    f_equal. apply IH. intros s Hs. apply Hfresh. by right.
  - intros now1 now2 Hne.
    by rewrite Hdel, !Hsave, !filter_app, Hsame, app_nil_r, Hdiff.
  - intros now.
    by rewrite Hdel, !Hsave, !filter_app, !Hsame, !app_nil_r.
Qed.

(** X14.  Clearing.  [clearSubmissions] removes the key, so nothing is read back,
    other keys stay, and the next save starts a list of one. *)
Theorem storage_clear (store : Storage.LocalStorage) :
  Storage.getSubmissions (Storage.clearSubmissions store) = [] /\
  Storage.clearSubmissions store !! Storage.STORAGE_KEY = None /\
  (forall k, k <> Storage.STORAGE_KEY ->
             Storage.clearSubmissions store !! k = store !! k) /\
  (forall now iso data,
      Storage.getSubmissions
        (Storage.saveSubmission now iso data
           (Storage.clearSubmissions store)).2
      = [newSubmission now iso data]).
Proof.
  assert (Hget : Storage.getSubmissions (Storage.clearSubmissions store) = []).
  { unfold Storage.getSubmissions, Storage.clearSubmissions.
    by rewrite lookup_delete_eq. }
  split; [done|]. split; [apply lookup_delete_eq|]. split.
  - intros k Hk. unfold Storage.clearSubmissions. by rewrite lookup_delete_ne.
  - intros now iso data. unfold Storage.saveSubmission. cbn [snd].
    by rewrite getSubmissions_insert, Hget.
Qed.

(** ** The list shown on the page *)

Lemma page_run_cons (ev : Storage.PageEvent) (events : list Storage.PageEvent)
    (p : Storage.Page) :
  Storage.run (ev :: events) p = Storage.run events (Storage.handle ev p).
Proof. reflexivity. Qed.

Lemma page_handle_step (ev : Storage.PageEvent) (p : Storage.Page) :
  Storage.submissions p = Storage.getSubmissions (Storage.localStorage p) ->
  let p' := Storage.handle ev p in
  Storage.submissions p' = Storage.getSubmissions (Storage.localStorage p') /\
  Storage.submissions p' = listStep ev (Storage.submissions p) /\
  Storage.refreshKey p'
  = Storage.refreshKey p + (if isSubmit ev then 1 else 0) /\
  (forall k, k <> Storage.STORAGE_KEY ->
             Storage.localStorage p' !! k = Storage.localStorage p !! k).
Proof.
  intros Hsync. destruct ev as [now iso data|id|[|]|]; cbn.
  - rewrite getSubmissions_insert, Hsync.
    split; [done|]. split; [done|]. split; [done|].
    intros k Hk. by rewrite lookup_insert_ne.
  - rewrite getSubmissions_insert, Hsync.
    split; [done|]. split; [done|]. split; [lia|].
    intros k Hk. unfold Storage.deleteSubmission. by rewrite lookup_insert_ne.
  - unfold Storage.getSubmissions, Storage.clearSubmissions.
    rewrite lookup_delete_eq.
    split; [done|]. split; [done|]. split; [lia|].
    intros k Hk. by rewrite lookup_delete_ne.
  - split; [done|]. split; [done|]. split; [lia|]. done.
  - split; [done|]. split; [done|]. split; [lia|]. done.
Qed.

(** X15.  The list [SubmissionsList] shows stays in step with the storage.  From
    mount on, after any sequence of submits, deletions, answered
    clear-all dialogs and success timeouts, the list shown is the list
    stored; it is the list read at mount transformed by the events (submit
    appends, delete filters by id, a confirmed clear empties, a declined
    clear and the timeout change nothing); [refreshKey] counts the submits;
    and no other key of the storage has been touched. *)
Theorem page_list_in_sync (events : list Storage.PageEvent)
    (store : Storage.LocalStorage) :
  let p := Storage.run events (Storage.mounted store) in
  Storage.submissions p = Storage.getSubmissions (Storage.localStorage p) /\
  Storage.submissions p = listAfter events (Storage.getSubmissions store) /\
  Storage.refreshKey p = countIf isSubmit events /\
  (forall k, k <> Storage.STORAGE_KEY ->
             Storage.localStorage p !! k = store !! k).
Proof.
  assert (Hgen : forall events p,
             Storage.submissions p
             = Storage.getSubmissions (Storage.localStorage p) ->
             let p' := Storage.run events p in
             Storage.submissions p'
             = Storage.getSubmissions (Storage.localStorage p') /\
             Storage.submissions p' = listAfter events (Storage.submissions p) /\
             Storage.refreshKey p'
             = Storage.refreshKey p + countIf isSubmit events /\
             (forall k, k <> Storage.STORAGE_KEY ->
                        Storage.localStorage p' !! k
                        = Storage.localStorage p !! k)).
  { clear events. induction events as [|ev events IH]; intros p Hsync.
    - cbv zeta. unfold countIf. cbn.
      split; [done|]. split; [done|]. split; [lia | done].
    - destruct (page_handle_step ev p Hsync) as (H1 & H2 & H3 & H4).
      destruct (IH (Storage.handle ev p) H1) as (G1 & G2 & G3 & G4).
      rewrite page_run_cons. cbv zeta. split; [exact G1|]. split; [|split].
      + rewrite G2, H2. reflexivity.
      + rewrite G3, H3. unfold countIf. cbn [List.filter].
        destruct (isSubmit ev); cbn [length]; lia.
      + intros k Hk. by rewrite G4, H4. }
  apply (Hgen events (Storage.mounted store)). reflexivity.
Qed.

Lemma storage_save_then_delete_witness :
  1 <> 2 /\
  Storage.getSubmissions
    (Storage.deleteSubmission (pretty 2)
       (Storage.saveSubmission 2 "d2" bobForm
          (Storage.saveSubmission 1 "d1" aliceForm ∅).2).2)
  = [] ++ [newSubmission 1 "d1" aliceForm].
Proof.
  split; [lia|].
  exact (proj1 (proj2 (proj2 (storage_save_then_delete "d1" "d2" aliceForm
                                bobForm ∅))) 1 2 ltac:(lia)).
Defined.

(** * Properties of the e-mail pattern *)

(** ** Matching by derivatives is matching *)

Lemma Matches_nullable (r : EmailPattern.regex) :
  EmailPattern.nullable r = true <-> EmailPattern.Matches r [].
Proof.
  induction r as [| |p|r1 IH1 r2 IH2|r1 IH1 r2 IH2|r IH]; cbn.
  - split; [done | inversion 1].
  - split; [constructor | done].
  - split; [done | inversion 1].
  - rewrite andb_true_iff, IH1, IH2. split.
    + intros [H1 H2]. apply (EmailPattern.MSeq _ _ [] []); done.
    + inversion 1 as [| |? ? s1 s2 H1 H2 E1 E2| | | |]; subst.
      apply app_eq_nil in E2 as [-> ->]. done.
  - rewrite orb_true_iff, IH1, IH2. split.
    + intros [H|H]; [by apply EmailPattern.MAltL | by apply EmailPattern.MAltR].
    + inversion 1; subst; tauto.
  - split; [constructor | done].
Qed.

(** A non-empty match of a star begins with a non-empty match of its body. *)
Lemma Matches_star_cons (r : EmailPattern.regex) (c : ascii) (s : list ascii) :
  EmailPattern.Matches (EmailPattern.Star r) (c :: s) ->
  exists s1 s2,
    s = s1 ++ s2 /\ EmailPattern.Matches r (c :: s1) /\
    EmailPattern.Matches (EmailPattern.Star r) s2.
Proof.
  intros H. remember (EmailPattern.Star r) as r' eqn:Hr.
  remember (c :: s) as cs eqn:Hcs. revert Hr s Hcs.
  induction H as [| | | | | |r0 s1 s2 H1 _ H2 IH2]; try discriminate.
  intros [= ->] s Hcs. destruct s1 as [|c1 s1].
  - cbn in Hcs. by apply IH2.
  - cbn in Hcs. injection Hcs as -> <-. by exists s1, s2.
Qed.

Lemma Matches_deriv (r : EmailPattern.regex) (c : ascii) (s : list ascii) :
  EmailPattern.Matches (EmailPattern.deriv c r) s
  <-> EmailPattern.Matches r (c :: s).
Proof.
  revert s. induction r as [| |p|r1 IH1 r2 IH2|r1 IH1 r2 IH2|r IH];
    intros s; cbn.
  - split; inversion 1.
  - split; inversion 1.
  - destruct (p c) eqn:Hp; split.
    + inversion 1; subst. by constructor.
    + inversion 1; subst. constructor.
    + inversion 1.
    + inversion 1; subst. congruence.
  - assert (Hseq : EmailPattern.Matches
                     (EmailPattern.Seq (EmailPattern.deriv c r1) r2) s ->
                   EmailPattern.Matches (EmailPattern.Seq r1 r2) (c :: s)).
    { inversion 1 as [| |? ? s1 s2 H1 H2| | | |]; subst.
      apply IH1 in H1. by apply (EmailPattern.MSeq _ _ (c :: s1) s2). }
    assert (Hinv : EmailPattern.Matches (EmailPattern.Seq r1 r2) (c :: s) ->
                   EmailPattern.Matches
                     (EmailPattern.Seq (EmailPattern.deriv c r1) r2) s \/
                   (EmailPattern.Matches r1 [] /\
                    EmailPattern.Matches r2 (c :: s))).
    { inversion 1 as [| |? ? s1 s2 H1 H2 E1 E2| | | |]; subst.
      destruct s1 as [|c1 s1].
      - right. cbn in E2. subst. done.
      - left. cbn in E2. injection E2 as -> <-.
        constructor; [by apply IH1 | done]. }
    destruct (EmailPattern.nullable r1) eqn:Hn; split.
    + inversion 1; subst; [by apply Hseq|].
      apply (EmailPattern.MSeq _ _ [] (c :: s));
        [by apply Matches_nullable | by apply IH2].
    + intros H. destruct (Hinv H) as [H'|[_ H']].
      * by apply EmailPattern.MAltL.
      * apply EmailPattern.MAltR. by apply IH2.
    + apply Hseq.
    + intros H. destruct (Hinv H) as [H'|[H' _]]; [done|].
      apply Matches_nullable in H'. congruence.
  - split.
    + inversion 1; subst;
        [apply EmailPattern.MAltL; by apply IH1
        |apply EmailPattern.MAltR; by apply IH2].
    + inversion 1; subst;
        [apply EmailPattern.MAltL; by apply IH1
        |apply EmailPattern.MAltR; by apply IH2].
  - split.
    + inversion 1 as [| |? ? s1 s2 H1 H2| | | |]; subst.
      apply IH in H1. by apply (EmailPattern.MStarApp _ (c :: s1) s2).
    + intros H. apply Matches_star_cons in H as (s1 & s2 & -> & H1 & H2).
      constructor; [by apply IH | done].
Qed.

Lemma accepts_Matches (r : EmailPattern.regex) (s : list ascii) :
  EmailPattern.accepts r s = true <-> EmailPattern.Matches r s.
Proof.
  revert r. induction s as [|c s IH]; intros r; cbn.
  - apply Matches_nullable.
  - rewrite IH. apply Matches_deriv.
Qed.

(** ** The texts the pattern matches *)

Lemma Matches_seq (r1 r2 : EmailPattern.regex) (s : list ascii) :
  EmailPattern.Matches (EmailPattern.Seq r1 r2) s
  <-> exists s1 s2,
        s = s1 ++ s2 /\ EmailPattern.Matches r1 s1 /\ EmailPattern.Matches r2 s2.
Proof.
  split.
  - inversion 1; subst. eauto.
  - intros (s1 & s2 & -> & H1 & H2). by constructor.
Qed.

Lemma Matches_class (p : ascii -> bool) (s : list ascii) :
  EmailPattern.Matches (EmailPattern.Class p) s
  <-> exists c, s = [c] /\ p c = true.
Proof.
  split.
  - inversion 1; subst. eauto.
  - intros (c & -> & Hp). by constructor.
Qed.

Lemma Matches_class_star (p : ascii -> bool) (s : list ascii) :
  EmailPattern.Matches (EmailPattern.Star (EmailPattern.Class p)) s
  <-> allChars p s.
Proof.
  unfold allChars. split.
  - intros H. remember (EmailPattern.Star (EmailPattern.Class p)) as r eqn:Hr.
    induction H as [| | | | | |r0 s1 s2 H1 _ H2 IH2]; try discriminate.
    + constructor.
    + injection Hr as ->. apply Matches_class in H1 as (c & -> & Hp).
      constructor; [done|]. by apply IH2.
  - induction 1 as [|c s Hp _ IH]; [constructor|].
    apply (EmailPattern.MStarApp _ [c] s); [by constructor | done].
Qed.

Lemma Matches_class_plus (p : ascii -> bool) (s : list ascii) :
  EmailPattern.Matches (EmailPattern.Plus (EmailPattern.Class p)) s
  <-> s <> [] /\ allChars p s.
Proof.
  unfold EmailPattern.Plus. rewrite Matches_seq. split.
  - intros (s1 & s2 & -> & (c & -> & Hp)%Matches_class & H2%Matches_class_star).
    split; [done|]. by constructor.
  - intros [Hne Hall]. destruct s as [|c s]; [done|].
    apply Forall_cons in Hall as [Hp Hall].
    exists [c], s. split; [done|]. split.
    + by constructor.
    + by apply Matches_class_star.
Qed.

Lemma Matches_class_atLeast2 (p : ascii -> bool) (s : list ascii) :
  EmailPattern.Matches (EmailPattern.AtLeast2 (EmailPattern.Class p)) s
  <-> 2 <= length s /\ allChars p s.
Proof.
  unfold EmailPattern.AtLeast2. rewrite Matches_seq. split.
  - intros (s1 & s2 & -> & (c & -> & Hp)%Matches_class & H2).
    apply (Matches_class_plus p s2) in H2 as [Hne Hall].
    split; [|by constructor]. destruct s2; [done|]. cbn. lia.
  - intros [Hlen Hall]. destruct s as [|c s]; [cbn in Hlen; lia|].
    apply Forall_cons in Hall as [Hp Hall].
    exists [c], s. split; [done|]. split; [by constructor|].
    apply (Matches_class_plus p s). split; [|done].
    destruct s; [cbn in Hlen; lia | done].
Qed.

Lemma isChar_true (a c : ascii) : EmailPattern.isChar a c = true <-> c = a.
Proof. unfold EmailPattern.isChar. apply Ascii.eqb_eq. Qed.

Lemma email_pattern_shape_iff (s : list ascii) :
  EmailPattern.Matches EmailPattern.pattern s
  <-> exists l d t, emailShape s l d t.
Proof.
  unfold emailShape, EmailPattern.pattern. split.
  - intros H.
    apply Matches_seq in H as (l & s1 & -> & Hl%Matches_class_plus & H).
    apply Matches_seq in H as (a & s2 & -> & (c & -> & ->%isChar_true)%Matches_class & H).
    apply Matches_seq in H as (d & s3 & -> & Hd%Matches_class_plus & H).
    apply Matches_seq in H as (b & t & -> & (c & -> & ->%isChar_true)%Matches_class & Ht).
    apply Matches_class_atLeast2 in Ht.
    exists l, d, t. cbn. tauto.
  - intros (l & d & t & -> & Hl & Hla & Hd & Hda & Ht & Hta).
    apply Matches_seq. exists l, ("@"%char :: d ++ "."%char :: t).
    split; [done|]. split; [by apply Matches_class_plus|].
    apply Matches_seq. exists ["@"%char], (d ++ "."%char :: t).
    split; [done|]. split; [by apply Matches_class, ex_intro with "@"%char|].
    apply Matches_seq. exists d, ("."%char :: t).
    split; [done|]. split; [by apply Matches_class_plus|].
    apply Matches_seq. exists ["."%char], t.
    split; [done|]. split; [by apply Matches_class, ex_intro with "."%char|].
    by apply Matches_class_atLeast2.
Qed.

Lemma email_pattern_shape_of_test (value : string) :
  EmailPattern.test value = true ->
  exists l d t, emailShape (String.list_ascii_of_string value) l d t.
Proof.
  unfold EmailPattern.test. rewrite accepts_Matches.
  apply email_pattern_shape_iff.
Qed.

(** X16.  The pattern accepts exactly the texts [local @ domain . tld] in which
    [local] is a non-empty run of letters, digits and the characters
    [._%+-], [domain] a non-empty run of letters, digits, dots and hyphens,
    and [tld] a run of at least two letters; letters count in either
    case. *)
Theorem email_pattern_accepts (value : string) :
  EmailPattern.test value = true
  <-> exists l d t, emailShape (String.list_ascii_of_string value) l d t.
Proof.
  unfold EmailPattern.test. rewrite accepts_Matches.
  apply email_pattern_shape_iff.
Qed.

Lemma allChars_count_zero (p : ascii -> bool) (a : ascii) (s : list ascii) :
  allChars p s -> p a = false -> count_occ ascii_dec s a = 0.
Proof.
  intros Hall Hp. induction Hall as [|c s Hc _ IH]; [done|].
  rewrite count_occ_cons_neq; [done|]. intros ->. congruence.
Qed.

Lemma allChars_weaken (p q : ascii -> bool) (s : list ascii) :
  (forall c, p c = true -> q c = true) -> allChars p s -> allChars q s.
Proof. intros Hpq Hp. eapply Forall_impl; [exact Hp | exact Hpq]. Qed.

Lemma domainChar_localChar (c : ascii) :
  EmailPattern.domainChar c = true -> EmailPattern.localChar c = true.
Proof.
  unfold EmailPattern.domainChar, EmailPattern.localChar.
  rewrite !orb_true_iff. tauto.
Qed.

Lemma isLetter_localChar (c : ascii) :
  EmailPattern.isLetter c = true -> EmailPattern.localChar c = true.
Proof.
  unfold EmailPattern.localChar. rewrite !orb_true_iff. tauto.
Qed.

(** X17.  What an accepted address is sure to look like: it holds exactly one
    [@]; every other character is a letter, a digit or one of [._%+-] (so no
    blank, no line break, nothing outside ASCII); it has at least six
    characters, begins with a character of the local part and ends with two
    letters. *)
Theorem email_pattern_consequences (value : string) :
  EmailPattern.test value = true ->
  let s := String.list_ascii_of_string value in
  count_occ ascii_dec s "@"%char = 1 /\
  (forall c, c ∈ s -> EmailPattern.localChar c = true \/ c = "@"%char) /\
  6 <= length s /\
  (exists c s', s = c :: s' /\ EmailPattern.localChar c = true) /\
  (exists s' a b,
      s = s' ++ [a; b] /\
      EmailPattern.isLetter a = true /\ EmailPattern.isLetter b = true).
Proof.
  intros Htest s.
  apply email_pattern_shape_of_test in Htest
    as (l & d & t & Hs & Hl & Hla & Hd & Hda & Ht & Hta).
  fold s in Hs.
  assert (Hdl := allChars_weaken _ _ _ domainChar_localChar Hda).
  assert (Htl := allChars_weaken _ _ _ isLetter_localChar Hta).
  split; [|split; [|split; [|split]]].
  - rewrite Hs, count_occ_app, count_occ_cons_eq, count_occ_app by done.
    rewrite count_occ_cons_neq by done.
    rewrite (allChars_count_zero _ _ _ Hla), (allChars_count_zero _ _ _ Hda),
      (allChars_count_zero _ _ _ Hta) by done.
    done.
  - intros c. rewrite Hs, elem_of_app, elem_of_cons, elem_of_app, elem_of_cons.
    unfold allChars in *. rewrite Forall_forall in Hla, Hdl, Htl.
    intros [Hc|[->|[Hc|[->|Hc]]]]; auto.
  - rewrite Hs, length_app, length_cons, length_app, length_cons.
    destruct l; [done|]. destruct d; [done|]. cbn [length]. lia.
  - destruct l as [|c l]; [done|]. exists c, (l ++ "@"%char :: d ++ "."%char :: t).
    split; [by rewrite Hs|]. by apply Forall_cons in Hla as [? _].
  - destruct (rev t) as [|b [|a t']] eqn:Hrev.
    + apply (f_equal (@length ascii)) in Hrev. rewrite length_rev in Hrev.
      cbn in Hrev. lia.
    + apply (f_equal (@length ascii)) in Hrev. rewrite length_rev in Hrev.
      cbn in Hrev. lia.
    + assert (Ht' : t = rev t' ++ [a; b]).
      { rewrite <- (rev_involutive t), Hrev. cbn. by rewrite <- app_assoc. }
      exists (l ++ "@"%char :: d ++ "."%char :: rev t'), a, b.
      split.
      * rewrite Hs, Ht', <- !app_assoc. cbn. by rewrite <- !app_assoc.
      * unfold allChars in Hta. rewrite Ht', Forall_app in Hta.
        destruct Hta as [_ Hab].
        apply Forall_cons in Hab as [Ha Hb]. apply Forall_cons in Hb as [Hb _].
        done.
Qed.

Lemma email_pattern_consequences_witness :
  EmailPattern.test "a@b.co" = true /\
  count_occ ascii_dec (String.list_ascii_of_string "a@b.co") "@"%char = 1 /\
  6 <= length (String.list_ascii_of_string "a@b.co").
Proof.
  assert (Htest : EmailPattern.test "a@b.co" = true) by reflexivity.
  split; [exact Htest|].
  destruct (email_pattern_consequences "a@b.co" Htest) as (Hc & _ & Hl & _).
  split; [exact Hc | exact Hl].
Defined.

(** * Chunks the reassemblers do not expect *)

Lemma Manual_receive_chunk_messages (events : list (nat * Frame))
    (msgs : list FileChunkMessage) (c : Component) :
  map snd events = map (fun m => TextFrame (FileChunk m)) msgs ->
  Manual.receive events c = c.
Proof.
  revert msgs. induction events as [|[now f] events IH];
    intros [|m msgs] Hev; try discriminate; [done|].
  cbn in Hev. injection Hev as -> Hev.
  rewrite Manual_receive_cons. cbn [Manual.onmessage Manual.handleTransferMessage].
  by apply (IH msgs).
Qed.

Lemma new_Blob_holes (n : nat) (type : string) :
  blob_bytes (new_Blob (new_Array n) type) = concat (replicate n holeBytes).
Proof.
  pose proof (new_Blob_prefix_bytes [] n type) as H. cbn in H. exact H.
Qed.

(** X9.  The manual-signaling component reads chunks from binary frames only.
    Chunk messages that arrive as text (['file-chunk'], the form the PeerJS
    component uses) are ignored in every state; a [Start], any number of
    such messages and an [End] complete a file that holds none of their
    data: it is the text "undefined" once per announced chunk. *)
Theorem Manual_ignores_chunk_messages (m : FileStartMessage)
    (msgs : list FileChunkMessage) (t0 tE : nat)
    (chunkEvents : list (nat * Frame)) (c : Component) :
  map snd chunkEvents = map (fun m => TextFrame (FileChunk m)) msgs ->
  Manual.receive chunkEvents c = c /\
  exists rf,
    Manual.receive ((t0, TextFrame (FileStart m))
                    :: chunkEvents ++ [(tE, TextFrame FileEnd)]) c
    = afterReceipt rf c /\
    blob_bytes (rf_data rf) = concat (replicate (start_totalChunks m) holeBytes) /\
    byteLength (blob_bytes (rf_data rf)) = 9 * start_totalChunks m.
Proof.
  intros Hev. split; [by apply (Manual_receive_chunk_messages _ msgs)|].
  rewrite Manual_receive_cons, Manual_receive_app.
  rewrite (Manual_receive_chunk_messages _ msgs _ Hev).
  exists {| rf_name := start_name m;
            rf_data := new_Blob (new_Array (start_totalChunks m))
                         (start_fileType m);
            rf_timestamp := tE |}.
  split; [reflexivity|]. cbn [rf_data].
  rewrite new_Blob_holes. split; [done|].
  unfold byteLength. rewrite concat_replicate_length.
  change (length holeBytes) with 9. lia.
Qed.

Lemma Manual_ignores_chunk_messages_witness :
  let m := {| start_name := "f"; start_fileType := "text/plain";
              start_totalChunks := 1; start_totalSize := 3 |} in
  let chunk := {| index := 0; data := abc |} in
  map snd [(1, TextFrame (FileChunk chunk))]
    = map (fun m => TextFrame (FileChunk m)) [chunk] /\
  exists rf,
    Manual.receive [(0, TextFrame (FileStart m)); (1, TextFrame (FileChunk chunk));
                    (2, TextFrame FileEnd)] initialComponent
    = afterReceipt rf initialComponent /\
    blob_bytes (rf_data rf) = holeBytes ++ [].
Proof.
  intros m chunk. split; [reflexivity|].
  destruct (Manual_ignores_chunk_messages m [chunk] 0 2
              [(1, TextFrame (FileChunk chunk))] initialComponent eq_refl)
    as (_ & rf & Hr & Hb & _).
  exists rf. split; [exact Hr | exact Hb].
Defined.

Lemma array_set_new_Array {A} (n i : nat) (v : A) :
  array_set (new_Array n) i v
  = replicate i None ++ [Some v] ++ replicate (n - i - 1) None.
Proof.
  unfold array_set, new_Array. rewrite length_replicate.
  destruct (decide (i < n)) as [Hlt|Hge].
  - replace n with (i + S (n - i - 1)) at 1 by lia.
    rewrite replicate_add. cbn [replicate].
    rewrite insert_app_r_alt by (rewrite length_replicate; lia).
    rewrite length_replicate, Nat.sub_diag. done.
  - replace (n - i - 1) with 0 by lia. cbn [replicate].
    rewrite app_nil_r, app_assoc, <- replicate_add.
    do 2 f_equal. lia.
Qed.

(** X10.  The indexed variant stores a chunk at the index its message carries,
    whatever the announced count.  After a [Start], one chunk message with
    index [i] and an [End], the completed file is [i] times the text
    "undefined", then the chunk, then "undefined" for every announced slot
    after [i]; an index at or beyond the announced count makes the buffer,
    and the file, longer than announced. *)
Theorem App_single_chunk_at_index (m : FileStartMessage) (i : nat)
    (b : ArrayBuffer) (t0 t1 tE : nat) (c : Component) :
  exists rf,
    App.receive [(t0, FileStart m);
                 (t1, FileChunk {| index := i; data := b |});
                 (tE, FileEnd)] c
    = afterReceipt rf c /\
    blob_bytes (rf_data rf)
    = concat (replicate i holeBytes) ++ b
      ++ concat (replicate (start_totalChunks m - i - 1) holeBytes) /\
    (start_totalChunks m <= i ->
     blob_bytes (rf_data rf) = concat (replicate i holeBytes) ++ b).
Proof.
  exists {| rf_name := start_name m;
            rf_data := new_Blob (array_set (new_Array (start_totalChunks m)) i b)
                         (start_fileType m);
            rf_timestamp := tE |}.
  split; [reflexivity|]. cbn [rf_data].
  assert (Hb : blob_bytes
                 (new_Blob (array_set (new_Array (start_totalChunks m)) i b)
                    (start_fileType m))
               = concat (replicate i holeBytes) ++ b
                 ++ concat (replicate (start_totalChunks m - i - 1) holeBytes)).
  { rewrite array_set_new_Array. unfold new_Blob. cbn [blob_bytes].
    rewrite !map_app, !concat_app, !map_replicate. cbn [map concat BlobPart_bytes].
    by rewrite app_nil_r. }
  split; [exact Hb|].
  intros Hge. cbv zeta in Hb. rewrite Hb.
  replace (start_totalChunks m - i - 1) with 0 by lia.
  cbn [replicate concat]. by rewrite app_nil_r.
Qed.
